(** * cpptimer: the timer and its manager (src/includes/timer/timer.hpp)

    A shallow embedding of [timer::timer] and [timer::manager] and the
    properties of the scheduling engine that the specification states.

    Modelling choices, all read off the header:
    - [clock::time_point] and [clock::duration] are library types whose
      representation the repository does not fix; both are integers (clock
      ticks) here, and [duration_cast] is the identity.  Their arithmetic
      is that of the integers: a statement about the due time of a newly
      stored timer assumes that it is a 64-bit tick count ([time_range]).
    - [timer_id] is [unsigned long long]: an integer modulo [2^64];
      [invalid_timer] is [-1] converted to it.
    - [int count] is a 32-bit two's complement integer; [count + 1] and
      [count -= 1] are written with their wrap-around.  Signed overflow is
      undefined in C++, so every statement below that depends on such a
      result assumes that the count stays in range.
    - a [callback] acts on an abstract environment (everything outside the
      manager: output streams, captured variables, the clock) and either
      returns or raises.  A callback that calls [cancel] on the manager
      that is ticking it is modelled in [reentrant], where the calls reach
      the manager through the environment; [manager.update] is the pass
      with callbacks that cancel nothing.  Callbacks that register timers
      during a pass are outside this model.
    - [clock::now()] reads the environment, and may change it.
    - every handler invocation bumps a ghost counter, so that "fires n
      times" is a statement about a number.
    - the two [while] loops of [timer::update] can spin forever; they take
      fuel, and running out of it is the outcome [Diverge].
    - threads and the mutex are not modelled: every method runs under the
      manager's lock, so the methods are atomic steps; the worker's loop
      is run on its own in [update_loop]. *)

From stdpp Require Import gmap list fin_maps.
From Stdlib Require Import ZArith Lia.

Local Open Scope Z_scope.

(** ** Machine integers and library types *)

Abbreviation time := Z (only parsing).
Abbreviation duration := Z (only parsing).
Abbreviation timer_id := Z (only parsing).

Definition id_modulus : Z := 2 ^ 64.

(** [static const timer_id invalid_timer = -1;] *)
Definition invalid_timer : timer_id := (-1) mod id_modulus.

(** The values of an [unsigned long long]. *)
Definition id_range (z : Z) : Prop := 0 <= z < id_modulus.

Definition int_min : Z := - 2 ^ 31.
Definition int_max : Z := 2 ^ 31 - 1.

(** The value an [int] expression takes when its mathematical value is [z]. *)
Definition int_wrap (z : Z) : Z := (z + 2 ^ 31) mod 2 ^ 32 - 2 ^ 31.

Definition int_range (z : Z) : Prop := int_min <= z <= int_max.

(** ** Environment, callbacks, outcomes *)

Inductive call_result (env : Type) : Type :=
| Returned (e : env)
| Raised (e : env).
Arguments Returned {env} e.
Arguments Raised {env} e.

(** [typedef std::function<void()> callback;] *)
Definition callback (env : Type) : Type := env -> call_result env.

(** The environment together with the ghost count of handler invocations. *)
Record world (env : Type) : Type := World {
  w_env : env;
  w_calls : nat
}.
Arguments World {env} w_env w_calls.
Arguments w_env {env} w.
Arguments w_calls {env} w.

(** How a method call on an object of type [S] ends: it returns [a], or an
    exception leaves it, or it never ends.  The first two carry the object
    and the world as the call left them. *)
Inductive outcome (env S A : Type) : Type :=
| Return (a : A) (s : S) (w : world env)
| Throw (s : S) (w : world env)
| Diverge.
Arguments Return {env S A} a s w.
Arguments Throw {env S A} s w.
Arguments Diverge {env S A}.

Definition never_raises {env : Type} (cb : callback env) : Prop :=
  forall e, exists e', cb e = Returned e'.

(** ** class timer *)

Module timer.

(** The data members that the methods read or write.  [id], [last] and
    [step] are declared but never used. *)
Record timer (env : Type) : Type := Timer {
  handler : option (callback env);   (* an empty std::function is None *)
  next : time;
  interval : duration;
  count : Z
}.
Arguments Timer {env} handler next interval count.
Arguments handler {env} t.
Arguments next {env} t.
Arguments interval {env} t.
Arguments count {env} t.

Section Methods.
Context {env : Type}.
Variable clock_now : env -> time * env.

Definition result (A : Type) : Type := outcome env (timer env) A.

(** [timer(callback handler, duration interval, int count)] *)
Definition ctor (h : option (callback env)) (dur : duration) (cnt : Z)
    (w : world env) : timer env * world env :=
  let (now, e) := clock_now (w_env w) in
  (Timer h (now + dur) dur cnt, World e (w_calls w)).

(** [execute()]: calling an empty std::function raises. *)
Definition execute (t : timer env) (w : world env) : result unit :=
  match handler t with
  | None => Throw t w
  | Some cb =>
      match cb (w_env w) with
      | Returned e =>
          Return tt (Timer (handler t) (next t + interval t) (interval t) (count t))
                 (World e (S (w_calls w)))
      | Raised e => Throw t (World e (S (w_calls w)))
      end
  end.

(** [while (this->next <= now) { this->execute(); }] *)
Fixpoint loop_forever (fuel : nat) (now : time) (t : timer env) (w : world env)
    : result bool :=
  match fuel with
  | O => Diverge
  | S fuel' =>
      if next t <=? now then
        match execute t w with
        | Return _ t1 w1 => loop_forever fuel' now t1 w1
        | Throw t1 w1 => Throw t1 w1
        | Diverge => Diverge
        end
      else Return false t w
  end.

(** [while (this->next <= now) { this->execute(); this->count -= 1;
    if (this->count == 1) return true; }] *)
Fixpoint loop_counted (fuel : nat) (now : time) (t : timer env) (w : world env)
    : result bool :=
  match fuel with
  | O => Diverge
  | S fuel' =>
      if next t <=? now then
        match execute t w with
        | Return _ t1 w1 =>
            let t2 := Timer (handler t1) (next t1) (interval t1)
                            (int_wrap (count t1 - 1)) in
            if count t2 =? 1 then Return true t2 w1
            else loop_counted fuel' now t2 w1
        | Throw t1 w1 => Throw t1 w1
        | Diverge => Diverge
        end
      else Return false t w
  end.

(** [update()], from the clock reading on (lines 121-153). *)
Definition update_from (fuel : nat) (now : time) (t : timer env) (w : world env)
    : result bool :=
  if next t <=? now then
    if count t <? 0 then
      match execute t w with
      | Return _ t1 w1 => Return true t1 w1
      | Throw t1 w1 => Throw t1 w1
      | Diverge => Diverge
      end
    else if count t =? 0 then loop_forever fuel now t w
    else if 1 <? count t then loop_counted fuel now t w
    else Return true t w
  else Return false t w.

(** [bool update()] *)
Definition update (fuel : nat) (t : timer env) (w : world env) : result bool :=
  match handler t with
  | None => Return true t w
  | Some _ =>
      let (now, e) := clock_now (w_env w) in
      update_from fuel now t (World e (w_calls w))
  end.

End Methods.

End timer.

(** ** class manager *)

Module manager.

(** [ids], [timers] and [remove].  The worker thread, the mutex and the
    [stopped] flag belong to the background loop. *)
Record manager (env : Type) : Type := Manager {
  ids : timer_id;
  timers : gmap Z (timer.timer env);
  remove : list timer_id
}.
Arguments Manager {env} ids timers remove.
Arguments ids {env} m.
Arguments timers {env} m.
Arguments remove {env} m.

Section Methods.
Context {env : Type}.
Variable clock_now : env -> time * env.

Definition result (A : Type) : Type := outcome env (manager env) A.

(** [manager() : ids(0)] *)
Definition ctor : manager env := Manager 0 ∅ [].

(** [clear()] *)
Definition clear (m : manager env) : manager env :=
  Manager 0 ∅ (remove m).

(** The [do { ... } while (true)] of [get_id]: [id = this->ids++], then
    [continue] on the sentinel, [break] on an identifier no timer holds. *)
Fixpoint get_id_loop (fuel : nat) (cur : timer_id) (tm : gmap Z (timer.timer env))
    : option (timer_id * timer_id) :=
  match fuel with
  | O => None
  | S fuel' =>
      let id := cur in
      let cur' := (cur + 1) mod id_modulus in
      if id =? invalid_timer then get_id_loop fuel' cur' tm
      else match tm !! id with
           | None => Some (id, cur')
           | Some _ => get_id_loop fuel' cur' tm
           end
  end.

(** [get_id()].  The loop of the source has no bound; it is run here for
    two more rounds than there are timers, which is as many as it can take
    when it ends at all (see [get_id_loop_enough] and [get_id_loop_more]). *)
Definition get_id (m : manager env) : option (timer_id * manager env) :=
  match get_id_loop (S (S (size (timers m)))) (ids m) (timers m) with
  | None => None
  | Some (id, cur') => Some (id, Manager cur' (timers m) (remove m))
  end.

(** The three registration methods share their last four lines:
    [get_id()], [new timer(...)], [this->timers[id] = t], [return id]. *)
Definition add (h : option (callback env)) (dur : duration) (cnt : Z)
    (m : manager env) (w : world env) : result timer_id :=
  match get_id m with
  | None => Diverge
  | Some (id, m1) =>
      let (t, w1) := timer.ctor clock_now h dur cnt w in
      Return id (Manager (ids m1) (<[id := t]> (timers m1)) (remove m1)) w1
  end.

(** [timeout(handler, dur)] *)
Definition timeout (h : option (callback env)) (dur : duration)
    (m : manager env) (w : world env) : result timer_id :=
  add h dur (-1) m w.

(** [interval(handler, dur)] *)
Definition interval (h : option (callback env)) (dur : duration)
    (m : manager env) (w : world env) : result timer_id :=
  add h dur 0 m w.

(** [repeat(handler, dur, count)] *)
Definition repeat (h : option (callback env)) (dur : duration) (cnt : Z)
    (m : manager env) (w : world env) : result timer_id :=
  if cnt <=? 0 then Return invalid_timer m w
  else if cnt =? 1 then timeout h dur m w
  else add h dur (int_wrap (cnt + 1)) m w.

(** [cancel(id)] *)
Definition cancel (id : timer_id) (m : manager env) : manager env :=
  if id =? invalid_timer then m
  else Manager (ids m) (timers m) (remove m ++ [id]).

(** The first loop of [update()], over the entries of the hash map in the
    order the iterator yields them.  No entry is visited twice and nothing
    else writes a timer during the pass, so the timer the iterator reaches
    is the one the pass started with.  The clock reading of line 325 is
    not used, but it is made. *)
Fixpoint tick_all (fuel : nat) (l : list (timer_id * timer.timer env))
    (m : manager env) (w : world env) : result unit :=
  match l with
  | [] => Return tt m w
  | (id, t) :: rest =>
      let (_, e) := clock_now (w_env w) in
      match timer.update clock_now fuel t (World e (w_calls w)) with
      | Return fin t' w' =>
          tick_all fuel rest
            (Manager (ids m) (<[id := t']> (timers m))
                     (if fin then remove m ++ [id] else remove m)) w'
      | Throw t' w' =>
          Throw (Manager (ids m) (<[id := t']> (timers m)) (remove m)) w'
      | Diverge => Diverge
      end
  end.

(** The second loop: [find] each identifier, [erase] it when found. *)
Definition sweep (rm : list timer_id) (tm : gmap Z (timer.timer env))
    : gmap Z (timer.timer env) :=
  foldl (fun acc r => match acc !! r with
                      | Some _ => delete r acc
                      | None => acc
                      end) tm rm.

(** [update()] *)
Definition update (fuel : nat) (m : manager env) (w : world env) : result unit :=
  match tick_all fuel (map_to_list (timers m)) m w with
  | Return _ m1 w1 =>
      Return tt (Manager (ids m1) (sweep (remove m1) (timers m1)) []) w1
  | Throw m1 w1 => Throw m1 w1
  | Diverge => Diverge
  end.

End Methods.

End manager.

(** ** Predicates on managers *)

(** The counter is an [unsigned long long], and no timer is stored under
    the sentinel. *)
Definition keys_valid {env : Type} (m : manager.manager env) : Prop :=
  id_range (manager.ids m) /\ manager.timers m !! invalid_timer = None.

(** Two managers that differ only in their [remove] lists, and there only
    by identifiers outside [K]. *)
Definition agree {env : Type} (K : Z -> Prop) (m1 m2 : manager.manager env) : Prop :=
  manager.ids m1 = manager.ids m2 /\
  manager.timers m1 = manager.timers m2 /\
  forall x, K x -> x ∈ manager.remove m1 <-> x ∈ manager.remove m2.

(** What a registration that returned [id] did to the manager: [id] is
    not the sentinel, no timer held it, one does now, and the timers that
    were there are as they were. *)
Definition registered {env : Type} (m : manager.manager env) (id : timer_id)
    (m' : manager.manager env) : Prop :=
  keys_valid m' /\ id <> invalid_timer /\
  manager.timers m !! id = None /\ is_Some (manager.timers m' !! id) /\
  forall j t, manager.timers m !! j = Some t -> manager.timers m' !! j = Some t.

(** ** Driving one timer through several ticks

    Between two ticks the environment changes in ways the timer does not
    control (time passes, the program runs): each tick comes with the
    change that precedes it.  The driver keeps ticking after a tick
    reported "finished", which the manager does not do; what holds for the
    driver holds for every prefix of its run. *)

Section Driver.
Context {env : Type}.
Variable clock_now : env -> time * env.


End Driver.

(** ** What a tick leaves of the schedule *)

(** The [next] and [count] of the timer as a tick left it, whether the
    tick returned or an exception left it. *)
Definition schedule_after {env A : Type} (o : timer.result (env := env) A)
    : option (time * Z) :=
  match o with
  | Return _ t _ | Throw t _ => Some (timer.next t, timer.count t)
  | Diverge => None
  end.

(** ** Concrete environments for the examples

    The environment is the time; the first clock reads it, the second is
    stopped at 100.  One callback returns, the other raises. *)

Definition clk : Z -> time * Z := fun e => (e, e).
Definition clk_100 : Z -> time * Z := fun e => (100, e).
Definition cb_ok : callback Z := fun e => Returned e.
Definition cb_bad : callback Z := fun e => Raised e.

(** ** The counter above every key *)

(** The state a manager is in as long as its counter has not wrapped
    around: every identifier in use is below the counter. *)
Definition keys_below {env : Type} (m : manager.manager env) : Prop :=
  0 <= manager.ids m /\
  forall k, is_Some (manager.timers m !! k) -> 0 <= k < manager.ids m.

(** ** The worker's loop *)

(** [update_loop(delay)], the body of the worker thread.  The [stopped]
    flag is written by [start] and [stop] on another thread; what the loop
    reads at each test of [while (!this->stopped)] is an input here, one
    reading per test, and a list of readings that ends before one of them
    is [true] is a loop that is still running.  [sleep_for] acts on the
    environment.  The value returned is the list of the readings [start]
    of the rounds, for the statements below; the source returns nothing. *)

Section Loop.
Context {env : Type}.
Variable clock_now : env -> time * env.
Variable sleep_for : duration -> env -> env.

Fixpoint update_loop (fuel : nat) (stopped : list bool) (delay : duration)
    (m : manager.manager env) (w : world env) : manager.result (list time) :=
  match stopped with
  | [] => Diverge
  | true :: _ => Return [] m w
  | false :: rest =>
      let (start, e1) := clock_now (w_env w) in
      match manager.update clock_now fuel m (World e1 (w_calls w)) with
      | Return _ m1 w1 =>
          let (finish, e2) := clock_now (w_env w1) in
          let elapsed := finish - start in
          let diff := delay - elapsed in
          let e3 := if 0 <? diff then sleep_for diff e2 else e2 in
          match update_loop fuel rest delay m1 (World e3 (w_calls w1)) with
          | Return starts m2 w2 => Return (start :: starts) m2 w2
          | Throw m2 w2 => Throw m2 w2
          | Diverge => Diverge
          end
      | Throw m1 w1 => Throw m1 w1
      | Diverge => Diverge
      end
  end.

End Loop.

(** A sleep that moves the time on, and a callback that takes one unit
    of it. *)
Definition sleep_z : duration -> Z -> Z := fun d e => e + d.
Definition cb_slow : callback Z := fun e => Returned (e + 1).

(** ** Callbacks that cancel

    A handler may call [cancel] on the manager that is ticking it (the
    example program does).  Such a call reaches the manager through the
    environment: [outbox] reads, and empties, the identifiers that the
    handlers run since the last reading passed to [cancel], in the order
    of the calls.  The first loop of [update] does not read [remove], so
    it makes no difference that the identifiers are appended when the
    timer's [update] is over rather than when [cancel] is called; they are
    appended before the timer's own identifier, as in the source.
    Handlers that register timers during a pass stay outside the model.
    With an [outbox] that is always empty the pass is the one of
    [manager.update] (see [reentrant_update_silent]). *)

Module reentrant.

Section Methods.
Context {env : Type}.
Variable clock_now : env -> time * env.
Variable outbox : env -> list timer_id * env.

(** The [cancel] calls of the handlers, one after the other. *)
Definition cancel_all (asked : list timer_id) (m : manager.manager env)
    : manager.manager env :=
  foldl (fun acc r => manager.cancel r acc) m asked.

(** The first loop of [update()]; it returns the identifiers that the
    handlers of the pass passed to [cancel]. *)
Fixpoint tick_all (fuel : nat) (l : list (timer_id * timer.timer env))
    (m : manager.manager env) (w : world env) : manager.result (list timer_id) :=
  match l with
  | [] => Return [] m w
  | (id, t) :: rest =>
      let (_, e) := clock_now (w_env w) in
      match timer.update clock_now fuel t (World e (w_calls w)) with
      | Return fin t' w' =>
          let (asked, e') := outbox (w_env w') in
          let m1 := cancel_all asked
                      (manager.Manager (manager.ids m) (<[id := t']> (manager.timers m))
                                       (manager.remove m)) in
          let m2 := if fin
                    then manager.Manager (manager.ids m1) (manager.timers m1)
                                         (manager.remove m1 ++ [id])
                    else m1 in
          match tick_all fuel rest m2 (World e' (w_calls w')) with
          | Return asked' m3 w3 => Return (asked ++ asked') m3 w3
          | Throw m3 w3 => Throw m3 w3
          | Diverge => Diverge
          end
      | Throw t' w' =>
          let (asked, e') := outbox (w_env w') in
          Throw (cancel_all asked
                   (manager.Manager (manager.ids m) (<[id := t']> (manager.timers m))
                                    (manager.remove m)))
                (World e' (w_calls w'))
      | Diverge => Diverge
      end
  end.

(** [update()] *)
Definition update (fuel : nat) (m : manager.manager env) (w : world env)
    : manager.result (list timer_id) :=
  match tick_all fuel (map_to_list (manager.timers m)) m w with
  | Return asked m1 w1 =>
      Return asked
        (manager.Manager (manager.ids m1)
           (manager.sweep (manager.remove m1) (manager.timers m1)) []) w1
  | Throw m1 w1 => Throw m1 w1
  | Diverge => Diverge
  end.

End Methods.

End reentrant.

(** ** Ranges and more concrete callbacks *)

(** The clock counts its ticks in 64 bits; a due time is one of them. *)
Definition time_range (z : Z) : Prop := - 2 ^ 63 <= z <= 2 ^ 63 - 1.


(** A callback that calls [cancel(0)]: it leaves -1 in the environment,
    which the outbox below reads as that call. *)
Definition cb_cancel_0 : callback Z := fun _ => Returned (-1).
Definition outbox_z : Z -> list timer_id * Z :=
  fun e => if e =? -1 then ([0], 0) else ([], e).
Definition outbox_none : Z -> list timer_id * Z := fun e => ([], e).

(** * Properties *)

(** ** Machine integers *)

Lemma int_wrap_id (z : Z) : int_range z -> int_wrap z = z.
Proof.
  unfold int_range, int_min, int_max, int_wrap. intros Hz.
  rewrite Z.mod_small; lia.
Qed.

Lemma invalid_timer_value : invalid_timer = 2 ^ 64 - 1.
Proof. reflexivity. Qed.

(** ** One timer *)

Section TimerFacts.
Context {env : Type}.
Variable clock_now : env -> time * env.
Implicit Types (t : timer.timer env) (w : world env) (cb : callback env).

Lemma execute_returned t w cb e :
  timer.handler t = Some cb -> cb (w_env w) = Returned e ->
  timer.execute t w =
    Return tt (timer.Timer (Some cb) (timer.next t + timer.interval t)
                           (timer.interval t) (timer.count t))
           (World e (S (w_calls w))).
Proof. unfold timer.execute. intros -> ->. reflexivity. Qed.

Lemma execute_raised t w cb e :
  timer.handler t = Some cb -> cb (w_env w) = Raised e ->
  timer.execute t w = Throw t (World e (S (w_calls w))).
Proof. unfold timer.execute. intros -> ->. reflexivity. Qed.


(** The same run when every one of the [n + 1] firings that are left is
    already due: all of them are made, and the run reports "finished". *)
Lemma loop_counted_catch_up cb now : forall (n fuel : nat) t w,
  timer.handler t = Some cb -> never_raises cb ->
  timer.count t = Z.of_nat n + 2 -> timer.count t <= int_max ->
  (forall i : nat, (i <= n)%nat ->
     timer.next t + Z.of_nat i * timer.interval t <= now) ->
  (n < fuel)%nat ->
  exists e,
    timer.loop_counted fuel now t w =
      Return true
        (timer.Timer (Some cb) (timer.next t + (Z.of_nat n + 1) * timer.interval t)
                     (timer.interval t) 1)
        (World e (w_calls w + n + 1)).
Proof.
  induction n as [|n IH]; intros fuel t w Hh Hcb Hc Hmax Hdue Hfuel;
    (destruct fuel as [|fuel]; [lia|]); simpl.
  - pose proof (Hdue 0%nat ltac:(lia)) as H0.
    destruct (Z.leb_spec (timer.next t) now); [|lia].
    destruct (Hcb (w_env w)) as [e He].
    rewrite (execute_returned _ _ _ _ Hh He). cbn -[int_wrap].
    rewrite int_wrap_id by (unfold int_range, int_min, int_max in *; lia).
    rewrite Hc. cbn. exists e. do 2 f_equal; lia.
  - pose proof (Hdue 0%nat ltac:(lia)) as H0.
    destruct (Z.leb_spec (timer.next t) now); [|lia].
    destruct (Hcb (w_env w)) as [e He].
    rewrite (execute_returned _ _ _ _ Hh He). cbn -[int_wrap].
    rewrite int_wrap_id by (unfold int_range, int_min, int_max in *; lia).
    destruct (Z.eqb_spec (timer.count t - 1) 1); [lia|].
    edestruct (IH fuel
                 (timer.Timer (Some cb) (timer.next t + timer.interval t)
                              (timer.interval t) (timer.count t - 1))
                 (World e (S (w_calls w)))) as [e' He']; cbn; try done; try lia.
    { intros i Hi. specialize (Hdue (S i) ltac:(lia)). lia. }
    cbn in He'. exists e'. rewrite He'. do 2 f_equal; lia.
Qed.












(** A timer that is not due is left alone, whatever its count. *)
Lemma update_not_due cb fuel t w now e :
  timer.handler t = Some cb ->
  clock_now (w_env w) = (now, e) -> now < timer.next t ->
  timer.update clock_now fuel t w = Return false t (World e (w_calls w)).
Proof.
  intros Hh Hclock Hnot.
  unfold timer.update, timer.update_from. rewrite Hh, Hclock.
  by destruct (Z.leb_spec (timer.next t) now); [lia|].
Qed.

(** The uncounted loop with [k] boundaries behind [now] fires [k] times. *)
Lemma loop_forever_catch_up cb now : forall (k fuel : nat) t w,
  timer.handler t = Some cb -> never_raises cb ->
  (forall i : nat, (i < k)%nat ->
     timer.next t + Z.of_nat i * timer.interval t <= now) ->
  now < timer.next t + Z.of_nat k * timer.interval t ->
  (k < fuel)%nat ->
  exists e,
    timer.loop_forever fuel now t w =
      Return false
        (timer.Timer (Some cb) (timer.next t + Z.of_nat k * timer.interval t)
                     (timer.interval t) (timer.count t))
        (World e (w_calls w + k)).
Proof.
  induction k as [|k IH]; intros fuel t w Hh Hcb Hdue Hlast Hfuel;
    (destruct fuel as [|fuel]; [lia|]); simpl.
  - destruct (Z.leb_spec (timer.next t) now); [lia|].
    exists (w_env w). destruct t, w; cbn in *. subst.
    do 2 f_equal; [f_equal|]; lia.
  - pose proof (Hdue 0%nat ltac:(lia)) as H0.
    destruct (Z.leb_spec (timer.next t) now); [|lia].
    destruct (Hcb (w_env w)) as [e He].
    rewrite (execute_returned _ _ _ _ Hh He).
    edestruct (IH fuel
                 (timer.Timer (Some cb) (timer.next t + timer.interval t)
                              (timer.interval t) (timer.count t))
                 (World e (S (w_calls w)))) as [e' He']; cbn; try done; try lia.
    { intros i Hi. specialize (Hdue (S i) ltac:(lia)). lia. }
    cbn in He'. exists e'. rewrite He'. do 2 f_equal; lia.
Qed.

(** The uncounted loop never reports "finished". *)
Lemma loop_forever_not_finished fuel now : forall t w fin t' w',
  timer.loop_forever fuel now t w = Return fin t' w' ->
  fin = false /\ timer.count t' = timer.count t /\
  timer.handler t' = timer.handler t.
Proof.
  induction fuel as [|fuel IH]; intros t w fin t' w'; simpl; [discriminate|].
  destruct (timer.next t <=? now); [|by intros [= <- <- <-]].
  unfold timer.execute. destruct (timer.handler t) as [cb|] eqn:Hh; [|discriminate].
  destruct (cb (w_env w)); [|discriminate].
  intros Hrun. apply IH in Hrun. cbn in Hrun.
  destruct Hrun as (? & ? & ?). split_and!; congruence.
Qed.

Lemma update_forever_not_finished fuel t w fin t' w' cb :
  timer.handler t = Some cb -> timer.count t = 0 ->
  timer.update clock_now fuel t w = Return fin t' w' ->
  fin = false /\ timer.count t' = 0 /\ timer.handler t' = Some cb.
Proof.
  intros Hh Hc. unfold timer.update, timer.update_from. rewrite Hh, Hc.
  destruct (clock_now (w_env w)) as [now e]. cbn.
  destruct (timer.next t <=? now).
  - intros Hrun. apply loop_forever_not_finished in Hrun. cbn in Hrun.
    destruct Hrun as (? & ? & ?). split_and!; congruence.
  - by intros [= <- <- <-].
Qed.





(** *** A handler that raises *)

Lemma loop_forever_throws cb fuel now : forall t w t' w',
  timer.handler t = Some cb ->
  timer.loop_forever fuel now t w = Throw t' w' ->
  exists (k : nat) e,
    cb e = Raised (w_env w') /\
    w_calls w' = (w_calls w + k + 1)%nat /\
    timer.next t' = timer.next t + Z.of_nat k * timer.interval t /\
    timer.count t' = timer.count t /\
    timer.interval t' = timer.interval t.
Proof.
  induction fuel as [|fuel IH]; intros t w t' w' Hh; simpl; [discriminate|].
  destruct (timer.next t <=? now); [|discriminate].
  unfold timer.execute. rewrite Hh.
  destruct (cb (w_env w)) as [e|e] eqn:He.
  - intros Hrun. apply IH in Hrun as (k & e0 & ? & ? & ? & ? & ?); [|done].
    cbn in *. exists (S k), e0. split_and!; try done; lia.
  - intros [= <- <-]. exists 0%nat, (w_env w). cbn. split_and!; try done; lia.
Qed.

Lemma loop_counted_throws cb fuel now : forall t w t' w',
  timer.handler t = Some cb ->
  2 <= timer.count t <= int_max ->
  timer.loop_counted fuel now t w = Throw t' w' ->
  exists (k : nat) e,
    cb e = Raised (w_env w') /\
    w_calls w' = (w_calls w + k + 1)%nat /\
    timer.next t' = timer.next t + Z.of_nat k * timer.interval t /\
    timer.count t' = timer.count t - Z.of_nat k /\
    timer.interval t' = timer.interval t.
Proof.
  induction fuel as [|fuel IH]; intros t w t' w' Hh Hc; simpl; [discriminate|].
  destruct (timer.next t <=? now); [|discriminate].
  unfold timer.execute. rewrite Hh.
  destruct (cb (w_env w)) as [e|e] eqn:He.
  - cbn -[int_wrap].
    rewrite int_wrap_id by (unfold int_range, int_min, int_max in *; lia).
    destruct (Z.eqb_spec (timer.count t - 1) 1); [discriminate|].
    intros Hrun. apply IH in Hrun as (k & e0 & ? & ? & ? & ? & ?); [|done|cbn; lia].
    cbn in *. exists (S k), e0. split_and!; try done; lia.
  - intros [= <- <-]. exists 0%nat, (w_env w). cbn. split_and!; try done; lia.
Qed.

Lemma update_throw_account fuel t w t' w' :
  timer.count t <= int_max ->
  timer.update clock_now fuel t w = Throw t' w' ->
  exists (k : nat) cb e,
    timer.handler t = Some cb /\
    cb e = Raised (w_env w') /\
    w_calls w' = (w_calls w + k + 1)%nat /\
    timer.next t' = timer.next t + Z.of_nat k * timer.interval t /\
    timer.count t' =
      (if 1 <? timer.count t then timer.count t - Z.of_nat k else timer.count t) /\
    timer.interval t' = timer.interval t.
Proof.
  intros Hmax. unfold timer.update, timer.update_from.
  destruct (timer.handler t) as [cb|] eqn:Hh; [|discriminate].
  destruct (clock_now (w_env w)) as [now e].
  destruct (timer.next t <=? now); [|discriminate].
  destruct (Z.ltb_spec (timer.count t) 0).
  { unfold timer.execute. rewrite Hh. cbn.
    destruct (cb e) as [e1|e1] eqn:He; [discriminate|]. intros [= <- <-].
    exists 0%nat, cb, e. cbn.
    destruct (Z.ltb_spec 1 (timer.count t)); [lia|]. split_and!; try done; lia. }
  destruct (Z.eqb_spec (timer.count t) 0) as [H0|H0].
  { intros Hrun. apply (loop_forever_throws cb) in Hrun
      as (k & e0 & ? & ? & ? & ? & ?); [|done].
    exists k, cb, e0. rewrite H0 in *. cbn in *. split_and!; try done; lia. }
  destruct (Z.ltb_spec 1 (timer.count t)); [|discriminate].
  intros Hrun. apply (loop_counted_throws cb) in Hrun
    as (k & e0 & ? & ? & ? & ? & ?); [|done|lia].
  exists k, cb, e0. cbn in *. split_and!; try done; lia.
Qed.

(** C8, as the code has it.  When the handler raises at a firing, the
    exception leaves the tick at once and that firing moves neither [next]
    nor [count]: raised at the first firing of a tick, it leaves the timer
    as it was; raised at the second, it leaves the timer as the first
    firing left it.  Conversely an exception leaves a tick only because
    the handler raised; the tick had fired [k] times before, with the
    handler returning, and only those [k] firings moved [next] on and, for
    a counted timer, took one off [count]. *)
Theorem raise_skips_advance fuel t w :
  timer.count t <= int_max ->
  (forall cb now e e',
     timer.handler t = Some cb -> clock_now (w_env w) = (now, e) ->
     timer.next t <= now -> timer.count t <> 1 ->
     cb e = Raised e' -> (0 < fuel)%nat ->
     timer.update clock_now fuel t w = Throw t (World e' (S (w_calls w)))) /\
  (forall cb now e e1 e2,
     timer.handler t = Some cb -> clock_now (w_env w) = (now, e) ->
     timer.next t + timer.interval t <= now -> timer.next t <= now ->
     timer.count t = 0 \/ 2 < timer.count t ->
     cb e = Returned e1 -> cb e1 = Raised e2 -> (1 < fuel)%nat ->
     timer.update clock_now fuel t w =
       Throw (timer.Timer (Some cb) (timer.next t + timer.interval t) (timer.interval t)
                          (if timer.count t =? 0 then 0 else timer.count t - 1))
             (World e2 (S (S (w_calls w))))) /\
  (forall t' w',
     timer.update clock_now fuel t w = Throw t' w' ->
     exists (k : nat) cb e,
       timer.handler t = Some cb /\
       cb e = Raised (w_env w') /\
       w_calls w' = (w_calls w + k + 1)%nat /\
       timer.next t' = timer.next t + Z.of_nat k * timer.interval t /\
       timer.count t' =
         (if 1 <? timer.count t then timer.count t - Z.of_nat k else timer.count t) /\
       timer.interval t' = timer.interval t).
Proof.
  intros Hmax. split_and!.
  - intros cb now e e' Hh Hclock Hdue Hc Hraise Hfuel.
    unfold timer.update, timer.update_from. rewrite Hh, Hclock.
    destruct (Z.leb_spec (timer.next t) now); [|lia].
    destruct fuel as [|fuel]; [lia|].
    destruct (Z.ltb_spec (timer.count t) 0).
    { by rewrite (execute_raised _ _ cb e'). }
    destruct (Z.eqb_spec (timer.count t) 0).
    { simpl. destruct (Z.leb_spec (timer.next t) now); [|lia].
      by rewrite (execute_raised _ _ cb e'). }
    destruct (Z.ltb_spec 1 (timer.count t)); [|lia].
    simpl. destruct (Z.leb_spec (timer.next t) now); [|lia].
    by rewrite (execute_raised _ _ cb e').
  - intros cb now e e1 e2 Hh Hclock Hdue2 Hdue Hc Hret Hraise Hfuel.
    unfold timer.update, timer.update_from. rewrite Hh, Hclock.
    destruct (Z.leb_spec (timer.next t) now); [|lia].
    destruct fuel as [|[|fuel]]; [lia|lia|].
    destruct (Z.ltb_spec (timer.count t) 0); [lia|].
    destruct (Z.eqb_spec (timer.count t) 0) as [Hzero|Hzero].
    { simpl. destruct (Z.leb_spec (timer.next t) now); [|lia].
      rewrite (execute_returned _ _ cb e1) by done. cbn.
      destruct (Z.leb_spec (timer.next t + timer.interval t) now); [|lia].
      rewrite Hraise. by rewrite Hzero. }
    destruct (Z.ltb_spec 1 (timer.count t)); [|lia].
    simpl. destruct (Z.leb_spec (timer.next t) now); [|lia].
    rewrite (execute_returned _ _ cb e1) by done. cbn -[int_wrap].
    rewrite int_wrap_id by (unfold int_range, int_min, int_max in *; lia).
    destruct (Z.eqb_spec (timer.count t - 1) 1); [lia|].
    destruct (Z.leb_spec (timer.next t + timer.interval t) now); [|lia].
    unfold timer.execute. cbn. rewrite Hraise.
    destruct (Z.eqb_spec (timer.count t) 0); [lia|done].
  - intros t' w'. by apply update_throw_account.
Qed.

(** *** Termination of a tick *)

Lemma loop_forever_terminates now : forall fuel t w,
  0 < timer.interval t ->
  (Z.to_nat (now + 1 - timer.next t) < fuel)%nat ->
  timer.loop_forever fuel now t w <> Diverge.
Proof.
  induction fuel as [|fuel IH]; intros t w Hpos Hfuel; simpl; [lia|].
  destruct (Z.leb_spec (timer.next t) now); [|discriminate].
  unfold timer.execute. destruct (timer.handler t) as [cb|]; [|discriminate].
  destruct (cb (w_env w)); [|discriminate].
  apply IH; cbn; lia.
Qed.

Lemma loop_counted_terminates now : forall fuel t w,
  0 < timer.interval t ->
  (Z.to_nat (now + 1 - timer.next t) < fuel)%nat ->
  timer.loop_counted fuel now t w <> Diverge.
Proof.
  induction fuel as [|fuel IH]; intros t w Hpos Hfuel; simpl; [lia|].
  destruct (Z.leb_spec (timer.next t) now); [|discriminate].
  unfold timer.execute. destruct (timer.handler t) as [cb|]; [|discriminate].
  destruct (cb (w_env w)); [|discriminate]. cbn -[int_wrap].
  destruct (_ =? 1); [discriminate|].
  apply IH; cbn; lia.
Qed.

Lemma update_terminates fuel t w :
  0 < timer.interval t ->
  (Z.to_nat (fst (clock_now (w_env w)) + 1 - timer.next t) < fuel)%nat ->
  timer.update clock_now fuel t w <> Diverge.
Proof.
  intros Hpos. unfold timer.update, timer.update_from.
  destruct (timer.handler t) as [cb|] eqn:Hh; [|discriminate].
  destruct (clock_now (w_env w)) as [now e]. cbn. intros Hfuel.
  destruct (timer.next t <=? now); [|discriminate].
  destruct (timer.count t <? 0).
  { unfold timer.execute. rewrite Hh. cbn. destruct (cb e); discriminate. }
  destruct (timer.count t =? 0); [by apply loop_forever_terminates|].
  destruct (1 <? timer.count t); [by apply loop_counted_terminates|discriminate].
Qed.

(** The counted loop ends whatever the interval is: every round takes one
    off a count that the loop leaves at one. *)
Lemma loop_counted_bounded now : forall fuel t w,
  2 <= timer.count t <= int_max ->
  timer.count t - 1 <= Z.of_nat fuel ->
  timer.loop_counted fuel now t w <> Diverge.
Proof.
  induction fuel as [|fuel IH]; intros t w Hc Hfuel; simpl; [lia|].
  destruct (timer.next t <=? now); [|discriminate].
  unfold timer.execute. destruct (timer.handler t) as [cb|]; [|discriminate].
  destruct (cb (w_env w)); [|discriminate]. cbn -[int_wrap].
  rewrite int_wrap_id by (unfold int_range, int_min, int_max in *; lia).
  destruct (Z.eqb_spec (timer.count t - 1) 1); [discriminate|].
  apply IH; cbn; lia.
Qed.

(** The uncounted loop with a zero interval is never left once entered. *)
Lemma loop_forever_zero_period cb now : forall fuel t w,
  timer.handler t = Some cb -> never_raises cb ->
  timer.interval t = 0 -> timer.next t <= now ->
  timer.loop_forever fuel now t w = Diverge.
Proof.
  induction fuel as [|fuel IH]; intros t w Hh Hcb Hzero Hdue; simpl; [done|].
  destruct (Z.leb_spec (timer.next t) now); [|lia].
  destruct (Hcb (w_env w)) as [e He].
  rewrite (execute_returned _ _ _ _ Hh He).
  apply IH; cbn; try done; lia.
Qed.

End TimerFacts.

(** ** The manager *)

Section ManagerFacts.
Context {env : Type}.
Variable clock_now : env -> time * env.
Implicit Types (m : manager.manager env) (w : world env)
  (tm : gmap Z (timer.timer env)) (t : timer.timer env).

Lemma id_modulus_pos : 0 < id_modulus.
Proof. reflexivity. Qed.

Lemma id_next_range (z : Z) : id_range ((z + 1) mod id_modulus).
Proof. apply Z.mod_pos_bound, id_modulus_pos. Qed.

(** *** Identifier generation *)

(** What the loop of [get_id] returns: it read the counter [k] times,
    [k >= 1], and the last value it read is free and is not the sentinel. *)
Lemma get_id_loop_spec tm : forall fuel cur id cur',
  id_range cur ->
  manager.get_id_loop fuel cur tm = Some (id, cur') ->
  id <> invalid_timer /\ tm !! id = None /\
  exists k : nat,
    (1 <= k <= fuel)%nat /\
    id = (cur + Z.of_nat k - 1) mod id_modulus /\
    cur' = (cur + Z.of_nat k) mod id_modulus.
Proof.
  induction fuel as [|fuel IH]; intros cur id cur' Hcur; simpl; [discriminate|].
  assert (Hstep : manager.get_id_loop fuel ((cur + 1) mod id_modulus) tm = Some (id, cur') ->
    id <> invalid_timer /\ tm !! id = None /\
    exists k : nat, (1 <= k <= S fuel)%nat /\
      id = (cur + Z.of_nat k - 1) mod id_modulus /\
      cur' = (cur + Z.of_nat k) mod id_modulus).
  { intros Hrun. apply IH in Hrun as (? & ? & k & ? & -> & ->); [|apply id_next_range].
    split_and!; try done. exists (S k). split; [lia|].
    split.
    - replace ((cur + 1) mod id_modulus + Z.of_nat k - 1)
        with ((cur + 1) mod id_modulus + (Z.of_nat k - 1)) by lia.
      rewrite Zplus_mod_idemp_l. f_equal; lia.
    - rewrite Zplus_mod_idemp_l. f_equal; lia. }
  destruct (Z.eqb_spec cur invalid_timer) as [Hinv|Hinv]; [exact Hstep|].
  destruct (tm !! cur) eqn:Hlook; [exact Hstep|].
  intros [= <- <-]. split_and!; try done. exists 1%nat. split; [lia|].
  split; [|done]. rewrite Z.mod_small; [lia|]. unfold id_range in Hcur. lia.
Qed.

(** More fuel does not change what the loop returns. *)
Lemma get_id_loop_more tm : forall fuel fuel' cur r,
  manager.get_id_loop fuel cur tm = Some r -> (fuel <= fuel')%nat ->
  manager.get_id_loop fuel' cur tm = Some r.
Proof.
  induction fuel as [|fuel IH]; intros fuel' cur r; simpl; [discriminate|].
  intros Hrun Hle. destruct fuel' as [|fuel']; [lia|]. simpl.
  destruct (cur =? invalid_timer); [apply IH; [done|lia]|].
  destruct (tm !! cur); [apply IH; [done|lia]|done].
Qed.

(** When the loop gives up, every value it read was taken. *)
Lemma get_id_loop_none tm : forall fuel cur,
  id_range cur ->
  manager.get_id_loop fuel cur tm = None ->
  forall j : nat, (j < fuel)%nat ->
    let c := (cur + Z.of_nat j) mod id_modulus in
    c = invalid_timer \/ is_Some (tm !! c).
Proof.
  induction fuel as [|fuel IH]; intros cur Hcur; simpl; [lia|].
  intros Hrun j Hj.
  assert (Hrest : manager.get_id_loop fuel ((cur + 1) mod id_modulus) tm = None).
  { destruct (cur =? invalid_timer); [done|]. by destruct (tm !! cur). }
  destruct j as [|j].
  - rewrite Z.add_0_r, Z.mod_small by done.
    destruct (Z.eqb_spec cur invalid_timer); [by left|].
    destruct (tm !! cur) eqn:Hlook; [right; by eexists|done].
  - pose proof (IH _ (id_next_range cur) Hrest j ltac:(lia)) as Hj'.
    cbn in Hj'. rewrite Zplus_mod_idemp_l in Hj'.
    by replace (cur + Z.of_nat (S j)) with (cur + 1 + Z.of_nat j) by lia.
Qed.

Lemma mod_inj_on_window (cur i j : Z) :
  0 <= i < id_modulus -> 0 <= j < id_modulus ->
  (cur + i) mod id_modulus = (cur + j) mod id_modulus -> i = j.
Proof.
  generalize id_modulus_pos. generalize id_modulus. intros M HM Hi Hj Heq.
  pose proof (Z.div_mod (cur + i) M ltac:(lia)) as Ha.
  pose proof (Z.div_mod (cur + j) M ltac:(lia)) as Hb.
  rewrite Heq in Ha.
  assert ((cur + i) / M = (cur + j) / M) as Hq by nia.
  rewrite Hq in Ha. lia.
Qed.

(** The loop ends within [size + 2] rounds: the values it reads are
    pairwise different, one of them at most is the sentinel and [size] of
    them at most are taken. *)
Lemma get_id_loop_enough tm cur :
  id_range cur -> Z.of_nat (size tm) + 2 <= id_modulus ->
  is_Some (manager.get_id_loop (S (S (size tm))) cur tm).
Proof.
  intros Hcur Hsize.
  destruct (manager.get_id_loop _ cur tm) as [r|] eqn:Hrun; [by eexists|].
  exfalso.
  pose proof (get_id_loop_none tm _ cur Hcur Hrun) as Htaken. cbn in Htaken.
  set (f := fun j : nat => (cur + Z.of_nat j) mod id_modulus).
  set (l := f <$> seq 0 (S (S (size tm)))).
  assert (Hnodup : NoDup l).
  { apply NoDup_fmap_2_strong; [|apply NoDup_seq].
    intros i j [_ Hi]%elem_of_seq [_ Hj]%elem_of_seq Hf.
    apply mod_inj_on_window in Hf; lia. }
  assert (Hsub : l ⊆+ invalid_timer :: (map_to_list tm).*1).
  { apply NoDup_submseteq; [done|]. intros x [j [-> [_ Hj]%elem_of_seq]]%list_elem_of_fmap.
    unfold f at 1.
    destruct (Htaken j ltac:(lia)) as [->|[t Ht]]; [left|right].
    apply list_elem_of_fmap. exists (f j, t). split; [done|].
    by apply elem_of_map_to_list. }
  apply submseteq_length in Hsub.
  unfold l in Hsub. cbn [length] in Hsub.
  rewrite !length_fmap, length_seq, length_map_to_list in Hsub. lia.
Qed.

Lemma get_id_spec m id m' :
  id_range (manager.ids m) ->
  manager.get_id m = Some (id, m') ->
  id <> invalid_timer /\ manager.timers m !! id = None /\
  manager.timers m' = manager.timers m /\
  manager.remove m' = manager.remove m /\
  id_range (manager.ids m') /\
  exists k : nat,
    (1 <= k)%nat /\
    id = (manager.ids m + Z.of_nat k - 1) mod id_modulus /\
    manager.ids m' = (manager.ids m + Z.of_nat k) mod id_modulus.
Proof.
  intros Hids. unfold manager.get_id.
  destruct (manager.get_id_loop _ _ _) as [[id0 cur']|] eqn:Hrun; [|discriminate].
  intros [= <- <-]. cbn.
  apply get_id_loop_spec in Hrun as (? & ? & k & [? ?] & ? & ->); [|done].
  split_and!; try done.
  - apply Z.mod_pos_bound, id_modulus_pos.
  - by exists k.
Qed.

Lemma get_id_total m :
  id_range (manager.ids m) ->
  Z.of_nat (size (manager.timers m)) + 2 <= id_modulus ->
  is_Some (manager.get_id m).
Proof.
  intros Hids Hsize. unfold manager.get_id.
  destruct (get_id_loop_enough (manager.timers m) (manager.ids m)) as [[id cur'] ->];
    [done|done|by eexists].
Qed.

(** *** Registration *)

Lemma add_spec h dur cnt m w id m' w' :
  id_range (manager.ids m) ->
  manager.add clock_now h dur cnt m w = Return id m' w' ->
  id <> invalid_timer /\ manager.timers m !! id = None /\
  manager.timers m' =
    <[id := timer.Timer h (fst (clock_now (w_env w)) + dur) dur cnt]> (manager.timers m) /\
  manager.remove m' = manager.remove m /\
  id_range (manager.ids m') /\
  w' = World (snd (clock_now (w_env w))) (w_calls w).
Proof.
  intros Hids. unfold manager.add, timer.ctor.
  destruct (manager.get_id m) as [[id0 m1]|] eqn:Hid; [|discriminate].
  destruct (clock_now (w_env w)) as [now e]. intros [= <- <- <-]. cbn.
  apply get_id_spec in Hid as (? & ? & -> & ? & ? & _); [|done].
  by split_and!.
Qed.

Lemma add_total h dur cnt m w :
  id_range (manager.ids m) ->
  Z.of_nat (size (manager.timers m)) + 2 <= id_modulus ->
  exists id m' w', manager.add clock_now h dur cnt m w = Return id m' w'.
Proof.
  intros Hids Hsize. unfold manager.add, timer.ctor.
  destruct (get_id_total m Hids Hsize) as [[id m1] ->].
  destruct (clock_now (w_env w)) as [now e]. by eexists _, _, _.
Qed.

(** *** The tick pass *)

Lemma sweep_lookup rm : forall tm id,
  manager.sweep rm tm !! id = if decide (id ∈ rm) then None else tm !! id.
Proof.
  unfold manager.sweep.
  induction rm as [|r rm IH]; intros tm id; simpl.
  - done.
  - rewrite IH.
    assert (Hdel : (match tm !! r with Some _ => delete r tm | None => tm end)
                   = delete r tm).
    { destruct (tm !! r) eqn:Hr; [done|]. symmetry. by apply delete_id. }
    rewrite Hdel.
    destruct (decide (id ∈ rm)) as [Hin|Hin];
      destruct (decide (id ∈ r :: rm)) as [Hin'|Hin']; try done.
    + exfalso. apply Hin'. by right.
    + apply elem_of_cons in Hin' as [->|?]; [|done]. by rewrite lookup_delete_eq.
    + apply lookup_delete_ne. intros ->. apply Hin'. by left.
Qed.

(** What the first loop of [update] leaves when it runs to its end: the
    timers outside the list untouched; every timer of the list ticked once
    and stored back; the identifiers of those that reported "finished"
    appended to [remove]. *)
Lemma tick_all_spec fuel : forall l m w m' w',
  NoDup l.*1 ->
  manager.tick_all clock_now fuel l m w = Return tt m' w' ->
  manager.ids m' = manager.ids m /\
  (forall id, id ∉ l.*1 -> manager.timers m' !! id = manager.timers m !! id) /\
  exists fins : list Z,
    manager.remove m' = manager.remove m ++ fins /\
    (forall id, id ∈ fins -> id ∈ l.*1) /\
    forall id t, (id, t) ∈ l ->
      exists w1 fin t' w2,
        timer.update clock_now fuel t w1 = Return fin t' w2 /\
        manager.timers m' !! id = Some t' /\
        (id ∈ fins <-> fin = true).
Proof.
  induction l as [|[id0 t0] l IH]; intros m w m' w' Hnd; simpl.
  - intros [= <- <-]. split_and!; try done. exists []. rewrite app_nil_r.
    split_and!; try done. intros id t Hin. by apply elem_of_nil in Hin.
  - apply NoDup_cons in Hnd as [Hfresh Hnd].
    destruct (clock_now (w_env w)) as [now0 e0].
    destruct (timer.update _ _ _ _) as [fin t0' w0| |] eqn:Hup; try discriminate.
    intros Hrun. apply IH in Hrun as (Hids & Hout & fins & Hrm & Hsub & Hin); [|done].
    cbn in Hids, Hout, Hrm. split_and!; try done.
    { intros id Hid. apply not_elem_of_cons in Hid as [Hne Hid].
      rewrite Hout by done. by rewrite lookup_insert_ne. }
    exists ((if fin then [id0] else []) ++ fins). split_and!.
    + rewrite Hrm. destruct fin; by rewrite <- ?app_assoc, ?app_nil_r.
    + intros id [Hid|Hid]%elem_of_app.
      * destruct fin; [|by apply elem_of_nil in Hid].
        apply list_elem_of_singleton in Hid as ->. left.
      * right. by apply Hsub.
    + intros id t [[= -> ->]|Hid]%elem_of_cons.
      * eexists _, fin, t0', w0. split; [exact Hup|]. split.
        { rewrite Hout by done. by rewrite lookup_insert_eq. }
        split.
        -- intros [Hid|Hid]%elem_of_app.
           ++ destruct fin; [done|by apply elem_of_nil in Hid].
           ++ apply Hsub in Hid. done.
        -- intros ->. apply elem_of_app. left. by apply list_elem_of_singleton.
      * destruct (Hin id t Hid) as (w1 & fin1 & t1 & w2 & ? & ? & Hiff).
        eexists w1, fin1, t1, w2. split_and!; try done.
        rewrite <- Hiff. rewrite elem_of_app.
        assert (id ≠ id0).
        { intros ->. apply Hfresh. apply list_elem_of_fmap. by exists (id0, t). }
        split; [|by right]. intros [Hid0|?]; [|done].
        destruct fin; [|by apply elem_of_nil in Hid0].
        by apply list_elem_of_singleton in Hid0.
Qed.

(** A pass of [update] that runs to its end: nothing appears; a timer that
    was there has been ticked once, and it is gone exactly when that tick
    reported "finished" or its identifier was pending removal. *)
Lemma update_pass fuel m w m' w' :
  manager.update clock_now fuel m w = Return tt m' w' ->
  manager.ids m' = manager.ids m /\ manager.remove m' = [] /\
  (forall id, manager.timers m !! id = None -> manager.timers m' !! id = None) /\
  (forall id t, manager.timers m !! id = Some t ->
     exists w1 fin t' w2,
       timer.update clock_now fuel t w1 = Return fin t' w2 /\
       manager.timers m' !! id =
         if fin || bool_decide (id ∈ manager.remove m) then None else Some t').
Proof.
  unfold manager.update.
  destruct (manager.tick_all _ _ _ _ _) as [[] m1 w1| |] eqn:Hrun; try discriminate.
  intros [= <- <-]. cbn.
  apply tick_all_spec in Hrun as (Hids & Hout & fins & Hrm & Hsub & Hin);
    [|apply NoDup_fst_map_to_list].
  split_and!; try done.
  - intros id Hnone. rewrite sweep_lookup. case_decide; [done|].
    rewrite Hout; [done|].
    intros [[id' t] [-> Hel%elem_of_map_to_list]]%list_elem_of_fmap.
    cbn in Hnone. congruence.
  - intros id t Hsome. apply elem_of_map_to_list in Hsome.
    destruct (Hin id t Hsome) as (wa & fin & t' & wb & Hup & Hlook & Hiff).
    exists wa, fin, t', wb. split; [done|].
    rewrite sweep_lookup, Hrm, Hlook.
    destruct fin; cbn.
    + rewrite decide_True; [done|]. apply elem_of_app. right. by apply Hiff.
    + case_bool_decide as Hpend.
      * rewrite decide_True; [done|]. apply elem_of_app. by left.
      * rewrite decide_False; [done|].
        intros [?|Hf%Hiff]%elem_of_app; done.
Qed.

Lemma tick_all_agree K fuel : forall l m1 m2 w,
  agree K m1 m2 ->
  match manager.tick_all clock_now fuel l m1 w,
        manager.tick_all clock_now fuel l m2 w with
  | Return _ m1' w1, Return _ m2' w2 => agree K m1' m2' /\ w1 = w2
  | Throw m1' w1, Throw m2' w2 => agree K m1' m2' /\ w1 = w2
  | Diverge, Diverge => True
  | _, _ => False
  end.
Proof.
  induction l as [|[id0 t0] l IH]; intros m1 m2 w (Hids & Htm & Hrm); simpl; [done|].
  destruct (clock_now (w_env w)) as [now0 e0].
  destruct (timer.update _ _ _ _) as [fin t0' w0|t0' w0|]; [| |done].
  - apply IH. cbn. rewrite Hids, Htm. split_and!; try done.
    intros x Hx. destruct fin; cbn; [|by apply Hrm].
    rewrite !elem_of_app. by rewrite (Hrm x Hx).
  - cbn. by rewrite Hids, Htm.
Qed.

Lemma sweep_agree rm1 rm2 tm :
  (forall x, is_Some (tm !! x) -> x ∈ rm1 <-> x ∈ rm2) ->
  manager.sweep rm1 tm = manager.sweep rm2 tm.
Proof.
  intros Hrm. apply map_eq. intros x. rewrite !sweep_lookup.
  destruct (tm !! x) eqn:Hx; [|by repeat case_decide].
  specialize (Hrm x ltac:(by eexists)).
  repeat case_decide; try done; tauto.
Qed.

(** Such managers come out of a pass the same. *)
Lemma update_agree fuel m1 m2 w :
  agree (fun x => is_Some (manager.timers m1 !! x)) m1 m2 ->
  (forall m' w', manager.update clock_now fuel m1 w = Return tt m' w' ->
                 manager.update clock_now fuel m2 w = Return tt m' w') /\
  (manager.update clock_now fuel m1 w = Diverge ->
   manager.update clock_now fuel m2 w = Diverge).
Proof.
  intros Hag. pose proof Hag as (_ & Htm & _).
  pose proof (tick_all_agree _ fuel (map_to_list (manager.timers m1)) m1 m2 w Hag)
    as Hrel.
  unfold manager.update. rewrite <- Htm.
  destruct (manager.tick_all _ _ _ m1 w) as [[] m1' w1|m1' w1|] eqn:Hrun1;
    destruct (manager.tick_all _ _ _ m2 w) as [[] m2' w2|m2' w2|] eqn:Hrun2;
    try done.
  destruct Hrel as ((Hids' & Htm' & Hrm') & <-).
  split; [|done]. intros m' w' [= <- <-]. do 2 f_equal; [done|].
  rewrite <- Htm'. symmetry. apply sweep_agree.
  intros x Hx. apply Hrm'.
  apply tick_all_spec in Hrun1 as (_ & Hout & _); [|apply NoDup_fst_map_to_list].
  destruct (manager.timers m1 !! x) eqn:Hlook; [by eexists|].
  rewrite Hout in Hx; [by rewrite Hlook in Hx|].
  intros [[id' t] [-> Hel%elem_of_map_to_list]]%list_elem_of_fmap.
  cbn in Hlook. congruence.
Qed.

Lemma agree_sym K m1 m2 : agree K m1 m2 -> agree K m2 m1.
Proof.
  intros (? & ? & Hrm). split_and!; try done. intros x Hx. symmetry. by apply Hrm.
Qed.

Lemma update_agree_iff fuel m1 m2 w :
  agree (fun x => is_Some (manager.timers m1 !! x)) m1 m2 ->
  (forall m' w',
     manager.update clock_now fuel m1 w = Return tt m' w' <->
     manager.update clock_now fuel m2 w = Return tt m' w') /\
  (manager.update clock_now fuel m1 w = Diverge <->
   manager.update clock_now fuel m2 w = Diverge).
Proof.
  intros Hag.
  assert (Hga : agree (fun x => is_Some (manager.timers m2 !! x)) m2 m1).
  { destruct Hag as (Hi & Ht & Hr). split_and!; [done|done|].
    intros x Hx. symmetry. apply Hr. by rewrite Ht. }
  pose proof (update_agree fuel m1 m2 w Hag) as [H12 D12].
  pose proof (update_agree fuel m2 m1 w Hga) as [H21 D21].
  split; [|by split]. intros m' w'. split; [apply H12|apply H21].
Qed.

(** A due one-shot timer cannot report anything but "finished". *)
Lemma update_one_shot_finished cb fuel t w fin t' w' :
  timer.handler t = Some cb -> timer.count t < 0 ->
  timer.next t <= fst (clock_now (w_env w)) ->
  timer.update clock_now fuel t w = Return fin t' w' -> fin = true.
Proof.
  intros Hh Hc. unfold timer.update, timer.update_from. rewrite Hh.
  destruct (clock_now (w_env w)) as [now e]. cbn. intros Hdue.
  destruct (Z.leb_spec (timer.next t) now); [|lia].
  destruct (Z.ltb_spec (timer.count t) 0); [|lia].
  destruct (timer.execute _ _); [|discriminate..]. by intros [= <- _ _].
Qed.

(** A one-shot timer that a tick does not finish was not due: the tick
    called nothing and changed nothing. *)
Lemma update_one_shot_cases cb fuel t w fin t' w' :
  timer.handler t = Some cb -> timer.count t < 0 ->
  timer.update clock_now fuel t w = Return fin t' w' ->
  fin = true \/ (t' = t /\ w_calls w' = w_calls w).
Proof.
  intros Hh Hc. unfold timer.update, timer.update_from. rewrite Hh.
  destruct (clock_now (w_env w)) as [now e].
  destruct (timer.next t <=? now); [|intros [= <- <- <-]; by right].
  destruct (Z.ltb_spec (timer.count t) 0); [|lia].
  destruct (timer.execute _ _); [|discriminate..]. intros [= <- _ _]. by left.
Qed.


(** *** The pass with handlers that cancel *)

Lemma cancel_all_spec asked : forall m,
  manager.ids (reentrant.cancel_all asked m) = manager.ids m /\
  manager.timers (reentrant.cancel_all asked m) = manager.timers m /\
  forall x, x ∈ manager.remove (reentrant.cancel_all asked m) <->
            x ∈ manager.remove m \/ (x ∈ asked /\ x <> invalid_timer).
Proof.
  unfold reentrant.cancel_all.
  induction asked as [|r asked IH]; intros m; simpl.
  - split_and!; try done. intros x. split; [by left|].
    intros [?|[Hx _]]; [done|by apply elem_of_nil in Hx].
  - destruct (IH (manager.cancel r m)) as (Hi & Ht & Hr).
    rewrite Hi, Ht. unfold manager.cancel in *.
    destruct (Z.eqb_spec r invalid_timer) as [->|Hne]; cbn in *.
    + split_and!; try done. intros x. rewrite Hr, elem_of_cons.
      split; [intros [?|[? ?]]; [by left|right; split; [by right|done]]|].
      intros [?|[[->|?] ?]]; [by left|done|by right].
    + split_and!; try done. intros x.
      rewrite Hr, elem_of_app, list_elem_of_singleton, elem_of_cons.
      split.
      * intros [[?| ->]|[? ?]]; [by left|right; split; [by left|done]|].
        right. split; [by right|done].
      * intros [?|[[->|?] ?]]; [by left; left|by left; right|by right].
Qed.

Lemma reentrant_tick_all_spec (outbox : env -> list Z * env) fuel :
  forall l m w asked m' w',
  NoDup l.*1 ->
  reentrant.tick_all clock_now outbox fuel l m w = Return asked m' w' ->
  manager.ids m' = manager.ids m /\
  (forall id, id ∉ l.*1 -> manager.timers m' !! id = manager.timers m !! id) /\
  exists fins : list Z,
    (forall x, x ∈ manager.remove m' <->
       x ∈ manager.remove m \/ x ∈ fins \/ (x ∈ asked /\ x <> invalid_timer)) /\
    (forall id, id ∈ fins -> id ∈ l.*1) /\
    forall id t, (id, t) ∈ l ->
      exists w1 fin t' w2,
        timer.update clock_now fuel t w1 = Return fin t' w2 /\
        manager.timers m' !! id = Some t' /\
        (id ∈ fins <-> fin = true).
Proof.
  induction l as [|[id0 t0] l IH]; intros m w asked m' w' Hnd; simpl.
  - intros [= <- <- <-]. split_and!; try done. exists [].
    split_and!.
    + intros x. split; [by left|]. intros [?|[Hx|[Hx _]]]; [done|..];
        by apply elem_of_nil in Hx.
    + intros id Hid. by apply elem_of_nil in Hid.
    + intros id t Hin. by apply elem_of_nil in Hin.
  - apply NoDup_cons in Hnd as [Hfresh Hnd].
    destruct (clock_now (w_env w)) as [now0 e0].
    destruct (timer.update _ _ _ _) as [fin t0' w0|s0 w0|] eqn:Hup;
      [|by destruct (outbox (w_env w0))|discriminate].
    destruct (outbox (w_env w0)) as [asked0 e0'].
    match goal with |- context [reentrant.cancel_all asked0 ?m0] =>
      destruct (cancel_all_spec asked0 m0) as (Hci & Hct & Hcr);
      set (m1 := reentrant.cancel_all asked0 m0) in * end.
    cbn in Hci, Hct, Hcr.
    destruct (reentrant.tick_all _ _ _ _ _ _) as [asked1 m3 w3| |] eqn:Hrest;
      try discriminate.
    intros [= <- <- <-].
    apply IH in Hrest as (Hids & Hout & fins & Hrm & Hsub & Hin); [|done].
    assert (Hi2 : manager.ids m3 = manager.ids m)
      by (rewrite Hids; destruct fin; cbn; done).
    assert (Ht2 : forall id, id ∉ l.*1 ->
              manager.timers m3 !! id = <[id0 := t0']> (manager.timers m) !! id).
    { intros id Hid. rewrite Hout by done. destruct fin; cbn; by rewrite Hct. }
    split_and!; [done| |].
    { intros id Hid. apply not_elem_of_cons in Hid as [Hne Hid].
      rewrite Ht2 by done. by rewrite lookup_insert_ne. }
    exists ((if fin then [id0] else []) ++ fins). split_and!.
    + intros x. rewrite Hrm, !elem_of_app.
      assert (Hx : x ∈ manager.remove (if fin
                     then manager.Manager (manager.ids m1) (manager.timers m1)
                            (manager.remove m1 ++ [id0])
                     else m1) <->
                   x ∈ manager.remove m \/ x ∈ (if fin then [id0] else []) \/
                   (x ∈ asked0 /\ x <> invalid_timer)).
      { destruct fin; cbn; rewrite ?elem_of_app, Hcr; [tauto|].
        split; [intros [?|?]; auto|intros [?|[Hx|?]]; auto].
        by apply elem_of_nil in Hx. }
      rewrite Hx. tauto.
    + intros id [Hid|Hid]%elem_of_app.
      * destruct fin; [|by apply elem_of_nil in Hid].
        apply list_elem_of_singleton in Hid as ->. left.
      * right. by apply Hsub.
    + intros id t [[= -> ->]|Hid]%elem_of_cons.
      * eexists _, fin, t0', w0. split; [exact Hup|]. split.
        { rewrite Ht2 by done. by rewrite lookup_insert_eq. }
        split.
        -- intros [Hid|Hid]%elem_of_app.
           ++ destruct fin; [done|by apply elem_of_nil in Hid].
           ++ apply Hsub in Hid. done.
        -- intros ->. apply elem_of_app. left. by apply list_elem_of_singleton.
      * destruct (Hin id t Hid) as (w1 & fin1 & t1 & w2 & ? & ? & Hiff).
        eexists w1, fin1, t1, w2. split_and!; try done.
        rewrite <- Hiff. rewrite elem_of_app.
        assert (id ≠ id0).
        { intros ->. apply Hfresh. apply list_elem_of_fmap. by exists (id0, t). }
        split; [|by right]. intros [Hid0|?]; [|done].
        destruct fin; [|by apply elem_of_nil in Hid0].
        by apply list_elem_of_singleton in Hid0.
Qed.

(** What a pass leaves when handlers may cancel: a timer is gone after the
    pass when its tick reported "finished", when it was pending at the start,
    or when a handler of the pass cancelled it. *)
Lemma reentrant_update_pass (outbox : env -> list Z * env) fuel m w asked m' w' :
  reentrant.update clock_now outbox fuel m w = Return asked m' w' ->
  manager.ids m' = manager.ids m /\ manager.remove m' = [] /\
  (forall id, manager.timers m !! id = None -> manager.timers m' !! id = None) /\
  (forall id t, manager.timers m !! id = Some t ->
     exists w1 fin t' w2,
       timer.update clock_now fuel t w1 = Return fin t' w2 /\
       manager.timers m' !! id =
         if fin || bool_decide (id ∈ manager.remove m)
                || bool_decide (id ∈ asked /\ id <> invalid_timer)
         then None else Some t').
Proof.
  unfold reentrant.update.
  destruct (reentrant.tick_all _ _ _ _ _ _) as [asked1 m1 w1| |] eqn:Hrun;
    try discriminate.
  intros [= <- <- <-]. cbn -[manager.sweep].
  apply reentrant_tick_all_spec in Hrun as (Hids & Hout & fins & Hrm & Hsub & Hin);
    [|apply NoDup_fst_map_to_list].
  split_and!; try done.
  - intros id Hnone. rewrite sweep_lookup. case_decide; [done|].
    rewrite Hout; [done|].
    intros [[id' t] [-> Hel%elem_of_map_to_list]]%list_elem_of_fmap.
    cbn in Hnone. congruence.
  - intros id t Hsome. apply elem_of_map_to_list in Hsome.
    destruct (Hin id t Hsome) as (wa & fin & t' & wb & Hup & Hlook & Hiff).
    exists wa, fin, t', wb. split; [done|].
    rewrite sweep_lookup, Hlook.
    destruct (decide (id ∈ manager.remove m1)) as [Hd|Hd].
    + apply Hrm in Hd as [Hd|[Hd|Hd]].
      * rewrite (bool_decide_eq_true_2 _ Hd). by rewrite orb_true_r.
      * apply Hiff in Hd as ->. done.
      * rewrite (bool_decide_eq_true_2 _ Hd). by rewrite orb_true_r.
    + destruct fin.
      * exfalso. apply Hd, Hrm. right. left. by apply Hiff.
      * rewrite !bool_decide_eq_false_2; [done|..].
        -- intros Hc. apply Hd, Hrm. by right; right.
        -- intros Hc. apply Hd, Hrm. by left.
Qed.

Lemma reentrant_tick_all_silent (outbox : env -> list Z * env) fuel :
  (forall e, outbox e = ([], e)) ->
  forall l m w,
  reentrant.tick_all clock_now outbox fuel l m w =
    match manager.tick_all clock_now fuel l m w with
    | Return _ m' w' => Return [] m' w'
    | Throw m' w' => Throw m' w'
    | Diverge => Diverge
    end.
Proof.
  intros Hs. induction l as [|[id0 t0] l IH]; intros m w; simpl; [done|].
  destruct (clock_now (w_env w)) as [now0 e0].
  destruct (timer.update _ _ _ _) as [fin t0' [e1 c1]|s0 [e1 c1]|]; [| |done];
    rewrite Hs; cbn; [|done].
  rewrite IH. destruct fin;
    by destruct (manager.tick_all _ _ _ _ _) as [[] m1 w1| |].
Qed.

(** With handlers that cancel nothing the pass is the one of
    [manager.update]. *)
Lemma reentrant_update_silent (outbox : env -> list Z * env) fuel m w :
  (forall e, outbox e = ([], e)) ->
  reentrant.update clock_now outbox fuel m w =
    match manager.update clock_now fuel m w with
    | Return _ m' w' => Return [] m' w'
    | Throw m' w' => Throw m' w'
    | Diverge => Diverge
    end.
Proof.
  intros Hs. unfold reentrant.update, manager.update.
  rewrite reentrant_tick_all_silent by done.
  by destruct (manager.tick_all _ _ _ _ _) as [[] m1 w1| |].
Qed.


(** C3.  A timer with count zero and a handler.  With a positive interval
    and a handler that returns, a tick at [now >= next] fires once for each
    of the [(now - next) / interval + 1] boundaries that [now] has reached,
    and moves [next] past [now].  Whenever a tick returns, it reports "not
    finished".  A pass of the manager, whose handlers may call [cancel],
    takes the timer out if and only if its identifier was pending removal
    when the pass began or a handler of the pass cancelled it. *)
Theorem interval_catches_up_and_stays cb t :
  timer.handler t = Some cb -> timer.count t = 0 ->
  (forall fuel w now e,
     never_raises cb -> 0 < timer.interval t ->
     clock_now (w_env w) = (now, e) -> timer.next t <= now ->
     let k := (now - timer.next t) / timer.interval t + 1 in
     (Z.to_nat k < fuel)%nat ->
     now < timer.next t + k * timer.interval t /\
     exists e',
       timer.update clock_now fuel t w =
         Return false
           (timer.Timer (Some cb) (timer.next t + k * timer.interval t)
                        (timer.interval t) 0)
           (World e' (w_calls w + Z.to_nat k))) /\
  (forall fuel w fin t' w',
     timer.update clock_now fuel t w = Return fin t' w' ->
     fin = false /\ timer.count t' = 0 /\ timer.handler t' = Some cb) /\
  (forall (outbox : env -> list Z * env) fuel m w asked m' w' id,
     manager.timers m !! id = Some t ->
     reentrant.update clock_now outbox fuel m w = Return asked m' w' ->
     (manager.timers m' !! id = None <->
        id ∈ manager.remove m \/ (id ∈ asked /\ id <> invalid_timer)) /\
     (id ∉ manager.remove m -> ~ (id ∈ asked /\ id <> invalid_timer) ->
      exists t', manager.timers m' !! id = Some t' /\
                 timer.count t' = 0 /\ timer.handler t' = Some cb)).
Proof.
  intros Hh Hc. split_and!.
  - intros fuel w now e Hcb Hpos Hclock Hdue k Hfuel.
    assert (Hk : 0 < k).
    { unfold k. pose proof (Z.div_pos (now - timer.next t) (timer.interval t)). lia. }
    assert (Hlo : (k - 1) * timer.interval t <= now - timer.next t).
    { unfold k. pose proof (Z.mul_div_le (now - timer.next t) (timer.interval t) Hpos).
      lia. }
    assert (Hhi : now - timer.next t < k * timer.interval t).
    { unfold k. pose proof (Z.mul_succ_div_gt (now - timer.next t) (timer.interval t) Hpos).
      lia. }
    split; [lia|].
    unfold timer.update, timer.update_from. rewrite Hh, Hclock, Hc. cbn.
    destruct (Z.leb_spec (timer.next t) now); [|lia].
    destruct (loop_forever_catch_up cb now (Z.to_nat k) fuel t (World e (w_calls w)))
      as [e' He']; try done.
    + intros i Hi. assert (Z.of_nat i <= k - 1) by lia. nia.
    + rewrite Z2Nat.id by lia. lia.
    + exists e'. rewrite He'. rewrite Z2Nat.id by lia. by rewrite Hc.
  - intros fuel w fin t' w'. by apply update_forever_not_finished.
  - intros outbox fuel m w asked m' w' id Hlook Hpass.
    apply reentrant_update_pass in Hpass as (_ & _ & _ & Hin).
    destruct (Hin id t Hlook) as (w1 & fin & t' & w2 & Hup & ->).
    apply (update_forever_not_finished _ _ _ _ _ _ _ cb) in Hup as (-> & ? & ?);
      try done. cbn.
    do 2 case_bool_decide; cbn; split; try done; try tauto.
    + split; [done|]. intros [?|?]; done.
    + intros _ _. by exists t'.
Qed.

(** What registration stores, whatever the counter holds. *)
Lemma add_stores h dur cnt m w id m' w' :
  manager.add clock_now h dur cnt m w = Return id m' w' ->
  manager.timers m' !! id =
    Some (timer.Timer h (fst (clock_now (w_env w)) + dur) dur cnt) /\
  manager.remove m' = manager.remove m /\
  forall j, j <> id -> manager.timers m' !! j = manager.timers m !! j.
Proof.
  unfold manager.add, manager.get_id, timer.ctor.
  destruct (manager.get_id_loop _ _ _) as [[id0 cur']|]; [|discriminate].
  destruct (clock_now (w_env w)) as [now e]. intros [= <- <- <-]. cbn.
  split_and!; [by rewrite lookup_insert_eq|done|].
  intros j Hj. by rewrite lookup_insert_ne.
Qed.

(** X14.  [repeat] by its count, in a manager that can still hand out an
    identifier and for a due time that is a tick count.  With a count of
    zero or less it returns the sentinel and touches nothing, the clock
    included.  With a count of one it is [timeout]: it returns an
    identifier that is not the sentinel, and the timer stored under it has
    count -1 and is due one duration after the clock reading.  With a
    count from two up and below the largest [int] it returns such an
    identifier too, and the timer stored has count [count + 1]. *)
Theorem repeat_by_count h dur cnt m w :
  id_range (manager.ids m) ->
  Z.of_nat (size (manager.timers m)) + 2 <= id_modulus ->
  time_range (fst (clock_now (w_env w)) + dur) ->
  (cnt <= 0 -> manager.repeat clock_now h dur cnt m w = Return invalid_timer m w) /\
  (cnt = 1 ->
   manager.repeat clock_now h dur cnt m w = manager.timeout clock_now h dur m w /\
   exists id m' w',
     manager.timeout clock_now h dur m w = Return id m' w' /\
     id <> invalid_timer /\
     manager.timers m' !! id =
       Some (timer.Timer h (fst (clock_now (w_env w)) + dur) dur (-1))) /\
  (2 <= cnt < int_max ->
   exists id m' w',
     manager.repeat clock_now h dur cnt m w = Return id m' w' /\
     id <> invalid_timer /\
     manager.timers m' !! id =
       Some (timer.Timer h (fst (clock_now (w_env w)) + dur) dur (cnt + 1))).
Proof.
  intros Hids Hsize _. unfold manager.repeat. split_and!.
  - intros Hc. by destruct (Z.leb_spec cnt 0); [|lia].
  - intros ->. cbn. split; [done|]. unfold manager.timeout.
    destruct (add_total h dur (-1) m w Hids Hsize) as (id & m' & w' & Hreg).
    exists id, m', w'. split; [done|].
    pose proof (add_spec _ _ _ _ _ _ _ _ Hids Hreg) as (? & _).
    apply add_stores in Hreg as (? & _). done.
  - intros Hc.
    destruct (Z.leb_spec cnt 0); [lia|].
    destruct (Z.eqb_spec cnt 1); [lia|].
    rewrite int_wrap_id by (unfold int_range, int_min, int_max in *; lia).
    destruct (add_total h dur (cnt + 1) m w Hids Hsize) as (id & m' & w' & Hreg).
    exists id, m', w'. split; [done|].
    pose proof (add_spec _ _ _ _ _ _ _ _ Hids Hreg) as (? & _).
    apply add_stores in Hreg as (? & _). done.
Qed.

(** C4, at the largest count.  [repeat] with [count = INT_MAX] computes
    [count + 1] in [int]: the timer it stores has count [INT_MIN], which
    is negative and not [count + 1], so the timer is a one-shot. *)
Theorem repeat_int_max_stores_int_min h dur m w :
  id_range (manager.ids m) ->
  Z.of_nat (size (manager.timers m)) + 2 <= id_modulus ->
  time_range (fst (clock_now (w_env w)) + dur) ->
  exists id m' w',
    manager.repeat clock_now h dur int_max m w = Return id m' w' /\
    manager.timers m' !! id =
      Some (timer.Timer h (fst (clock_now (w_env w)) + dur) dur int_min) /\
    int_min < 0 /\ int_min <> int_max + 1.
Proof.
  intros Hids Hsize _. unfold manager.repeat.
  change (int_max <=? 0) with false. change (int_max =? 1) with false.
  change (int_wrap (int_max + 1)) with int_min. cbn iota.
  destruct (add_total h dur int_min m w Hids Hsize) as (id & m' & w' & Hreg).
  exists id, m', w'. split; [done|].
  apply add_stores in Hreg as (? & _). split; [done|]. split; [done|discriminate].
Qed.

Lemma agree_weaken (K K' : Z -> Prop) m1 m2 :
  (forall x, K' x -> K x) -> agree K m1 m2 -> agree K' m1 m2.
Proof. intros HK (? & ? & Hr). split_and!; try done. intros x Hx. by apply Hr, HK. Qed.

Lemma cancel_again_agree id m n :
  agree (fun _ => True) (Nat.iter (S n) (manager.cancel id) m) (manager.cancel id m).
Proof.
  induction n as [|n IH]; [done|].
  change (Nat.iter (S (S n)) (manager.cancel id) m)
    with (manager.cancel id (Nat.iter (S n) (manager.cancel id) m)).
  destruct IH as (Hi & Ht & Hr). revert Hi Ht Hr.
  generalize (Nat.iter (S n) (manager.cancel id) m). intros m1.
  unfold manager.cancel. destruct (id =? invalid_timer); cbn; [done|].
  intros Hi Ht Hr. split_and!; try done. intros x _. cbn.
  rewrite elem_of_app, (Hr x I), elem_of_app, list_elem_of_singleton. tauto.
Qed.

(** C6.  [cancel] of the sentinel changes nothing.  However many times an
    identifier is cancelled, the pass that follows ends in the state it
    ends in after one [cancel] (and ends when that one does).  Cancelling
    an identifier that no timer holds does not change how the pass ends. *)
Theorem cancel_idempotent id m :
  manager.cancel invalid_timer m = m /\
  (forall n fuel w,
     (forall m' w',
        manager.update clock_now fuel (Nat.iter (S n) (manager.cancel id) m) w
          = Return tt m' w' <->
        manager.update clock_now fuel (manager.cancel id m) w = Return tt m' w') /\
     (manager.update clock_now fuel (Nat.iter (S n) (manager.cancel id) m) w
        = Diverge <->
      manager.update clock_now fuel (manager.cancel id m) w = Diverge)) /\
  (manager.timers m !! id = None ->
   forall fuel w,
     (forall m' w',
        manager.update clock_now fuel (manager.cancel id m) w = Return tt m' w' <->
        manager.update clock_now fuel m w = Return tt m' w') /\
     (manager.update clock_now fuel (manager.cancel id m) w = Diverge <->
      manager.update clock_now fuel m w = Diverge)).
Proof.
  split_and!.
  - unfold manager.cancel. by rewrite Z.eqb_refl.
  - intros n fuel w. apply update_agree_iff.
    by apply (agree_weaken (fun _ => True)), cancel_again_agree.
  - intros Hnone fuel w. apply update_agree_iff.
    unfold manager.cancel. destruct (id =? invalid_timer); [done|].
    split_and!; try done. cbn. intros x [t Hx].
    rewrite elem_of_app, list_elem_of_singleton.
    split; [|by left]. intros [?| ->]; [done|congruence].
Qed.

(** *** The keys of the timer map *)

Lemma ctor_keys_valid : keys_valid (@manager.ctor env).
Proof. split; [done|apply lookup_empty]. Qed.

Lemma add_registered h dur cnt m w id m' w' :
  keys_valid m ->
  manager.add clock_now h dur cnt m w = Return id m' w' ->
  registered m id m'.
Proof.
  intros [Hids Hkey] Hreg.
  pose proof (add_spec _ _ _ _ _ _ _ _ Hids Hreg) as (Hne & Hfree & _ & _ & Hids' & _).
  apply add_stores in Hreg as (Hnew & _ & Hold).
  split_and!; try done.
  - split; [done|]. by rewrite Hold.
  - intros j t Hj. rewrite Hold; [done|]. intros ->. congruence.
Qed.

Lemma tick_all_keys fuel : forall l m w,
  (forall id t, (id, t) ∈ l -> id <> invalid_timer) ->
  manager.timers m !! invalid_timer = None ->
  match manager.tick_all clock_now fuel l m w with
  | Return _ m' _ | Throw m' _ =>
      manager.ids m' = manager.ids m /\ manager.timers m' !! invalid_timer = None
  | Diverge => True
  end.
Proof.
  induction l as [|[id0 t0] l IH]; intros m w Hl Hkey; simpl; [done|].
  assert (id0 <> invalid_timer) by (apply (Hl id0 t0); left).
  destruct (clock_now (w_env w)) as [now0 e0].
  destruct (timer.update _ _ _ _) as [fin t0' w0|t0' w0|]; [| |done].
  - match goal with |- context [manager.tick_all _ _ _ ?m1 ?w1] =>
      specialize (IH m1 w1) end.
    cbn in IH. apply IH.
    + intros id t Hin. apply (Hl id t). by right.
    + by rewrite lookup_insert_ne.
  - cbn. by rewrite lookup_insert_ne.
Qed.

Lemma update_keys fuel m w :
  keys_valid m ->
  match manager.update clock_now fuel m w with
  | Return _ m' _ | Throw m' _ => keys_valid m'
  | Diverge => True
  end.
Proof.
  intros [Hids Hkey]. unfold manager.update.
  pose proof (tick_all_keys fuel (map_to_list (manager.timers m)) m w) as Hpass.
  destruct (manager.tick_all _ _ _ _ _) as [[] m1 w1|m1 w1|]; [| |done].
  - destruct Hpass as [Hi Hk]; [|done|].
    { intros id t Hin%elem_of_map_to_list ->. congruence. }
    split; cbn; [by rewrite Hi|]. rewrite sweep_lookup. by case_decide.
  - destruct Hpass as [Hi Hk]; [|done|].
    { intros id t Hin%elem_of_map_to_list ->. congruence. }
    split; [by rewrite Hi|done].
Qed.

(** The loop of [get_id] in full: the value returned is the first one,
    counting from the counter, that is free and not the sentinel, and the
    counter is left just behind it. *)
Lemma get_id_loop_least tm : forall fuel cur id cur',
  id_range cur ->
  manager.get_id_loop fuel cur tm = Some (id, cur') ->
  exists k : nat,
    (1 <= k <= fuel)%nat /\
    id = (cur + Z.of_nat k - 1) mod id_modulus /\
    cur' = (cur + Z.of_nat k) mod id_modulus /\
    forall j : nat, (j < k - 1)%nat ->
      (cur + Z.of_nat j) mod id_modulus = invalid_timer \/
      is_Some (tm !! ((cur + Z.of_nat j) mod id_modulus)).
Proof.
  induction fuel as [|fuel IH]; intros cur id cur' Hcur; simpl; [discriminate|].
  assert (Hstep : (cur = invalid_timer \/ is_Some (tm !! cur)) ->
    manager.get_id_loop fuel ((cur + 1) mod id_modulus) tm = Some (id, cur') ->
    exists k : nat, (1 <= k <= S fuel)%nat /\
      id = (cur + Z.of_nat k - 1) mod id_modulus /\
      cur' = (cur + Z.of_nat k) mod id_modulus /\
      forall j : nat, (j < k - 1)%nat ->
        (cur + Z.of_nat j) mod id_modulus = invalid_timer \/
        is_Some (tm !! ((cur + Z.of_nat j) mod id_modulus))).
  { intros Htaken Hrun.
    apply IH in Hrun as (k & Hk & -> & -> & Hbefore); [|apply id_next_range].
    exists (S k). split; [lia|]. split_and!.
    - replace ((cur + 1) mod id_modulus + Z.of_nat k - 1)
        with ((cur + 1) mod id_modulus + (Z.of_nat k - 1)) by lia.
      rewrite Zplus_mod_idemp_l. f_equal; lia.
    - rewrite Zplus_mod_idemp_l. f_equal; lia.
    - intros [|j] Hj.
      + rewrite Z.add_0_r, Z.mod_small by done. exact Htaken.
      + specialize (Hbefore j ltac:(lia)). rewrite Zplus_mod_idemp_l in Hbefore.
        by replace (cur + Z.of_nat (S j)) with (cur + 1 + Z.of_nat j) by lia. }
  destruct (Z.eqb_spec cur invalid_timer) as [Hinv|Hinv]; [apply Hstep; by left|].
  destruct (tm !! cur) eqn:Hlook; [apply Hstep; right; by eexists|].
  intros [= <- <-]. exists 1%nat. split; [lia|]. split_and!.
  - rewrite Z.mod_small; [lia|]. unfold id_range in Hcur. lia.
  - done.
  - intros j Hj. lia.
Qed.

(** C7.  In a manager whose counter is an [unsigned long long] and whose
    map has no timer under the sentinel: [get_id] returns (as long as
    fewer than [2^64 - 1] timers are stored); the identifier it returns is
    not the sentinel and is held by no timer.  The counter only counts
    up: [get_id] has added one to it [k] times, [1 <= k <= size + 2],
    modulo [2^64]; the identifier is the last value it read, and the
    values read before were each the sentinel or in use, so that [k] is
    the least number of steps that reach a usable value.  Without
    wrap-around the counter is above what it was and one above the
    identifier; a counter whose own value is usable is returned and moved
    on by exactly one.  Every method keeps the map free of the sentinel,
    a pass whose handlers cancel too, and a registration leaves the timers
    that were there under their identifiers. *)
Theorem ids_fresh_and_valid m :
  keys_valid m ->
  (Z.of_nat (size (manager.timers m)) + 2 <= id_modulus ->
   is_Some (manager.get_id m)) /\
  (forall id m',
     manager.get_id m = Some (id, m') ->
     id <> invalid_timer /\ manager.timers m !! id = None /\
     manager.timers m' = manager.timers m /\ keys_valid m' /\
     exists k : nat,
       (1 <= k)%nat /\
       id = (manager.ids m + Z.of_nat k - 1) mod id_modulus /\
       manager.ids m' = (manager.ids m + Z.of_nat k) mod id_modulus /\
       (manager.ids m + Z.of_nat k < id_modulus ->
        manager.ids m < manager.ids m' /\ id = manager.ids m' - 1) /\
       (k <= size (manager.timers m) + 2)%nat /\
       (forall j : nat, (j < k - 1)%nat ->
          (manager.ids m + Z.of_nat j) mod id_modulus = invalid_timer \/
          is_Some (manager.timers m !! ((manager.ids m + Z.of_nat j) mod id_modulus))) /\
       (Z.of_nat (size (manager.timers m)) + 2 <= id_modulus ->
        id_modulus <= manager.ids m + Z.of_nat k ->
        manager.ids m' = manager.ids m + Z.of_nat k - id_modulus)) /\
  (manager.ids m <> invalid_timer -> manager.timers m !! manager.ids m = None ->
   manager.get_id m =
     Some (manager.ids m,
           manager.Manager ((manager.ids m + 1) mod id_modulus)
                           (manager.timers m) (manager.remove m))) /\
  (forall h dur w id m' w',
     manager.timeout clock_now h dur m w = Return id m' w' -> registered m id m') /\
  (forall h dur w id m' w',
     manager.interval clock_now h dur m w = Return id m' w' -> registered m id m') /\
  (forall h dur cnt w id m' w',
     manager.repeat clock_now h dur cnt m w = Return id m' w' ->
     (cnt <= 0 /\ id = invalid_timer /\ m' = m) \/ registered m id m') /\
  (forall id, keys_valid (manager.cancel id m)) /\
  keys_valid (manager.clear m) /\
  (forall fuel w,
     match manager.update clock_now fuel m w with
     | Return _ m' _ | Throw m' _ => keys_valid m'
     | Diverge => True
     end) /\
  (forall (outbox : env -> list Z * env) fuel w asked m' w',
     reentrant.update clock_now outbox fuel m w = Return asked m' w' ->
     keys_valid m').
Proof.
  intros Hv. pose proof Hv as [Hids Hkey]. split_and!.
  - by apply get_id_total.
  - intros id m' Hid. pose proof Hid as Hid'.
    apply get_id_spec in Hid as (? & ? & Htm & ? & ? & _); [|done].
    split_and!; try done.
    { split; [done|]. by rewrite Htm. }
    unfold manager.get_id in Hid'.
    destruct (manager.get_id_loop _ _ _) as [[id0 cur']|] eqn:Hrun; [|discriminate].
    injection Hid' as <- <-. cbn.
    apply get_id_loop_least in Hrun as (k & Hk & Hk1 & Hk2 & Hleast); [|done].
    exists k. unfold id_range in Hids. split_and!; try done; try lia.
    + intros Hnowrap.
      rewrite Z.mod_small in Hk1 by lia. rewrite Z.mod_small in Hk2 by lia. lia.
    + intros Hsize Hwrap. rewrite Hk2. symmetry.
      apply (Z.mod_unique _ _ 1); lia.
  - intros Hne Hfree. unfold manager.get_id. simpl.
    destruct (Z.eqb_spec (manager.ids m) invalid_timer); [done|]. by rewrite Hfree.
  - intros h dur w id m' w'. by apply add_registered.
  - intros h dur w id m' w'. by apply add_registered.
  - intros h dur cnt w id m' w'. unfold manager.repeat.
    destruct (Z.leb_spec cnt 0).
    + intros [= <- <- <-]. by left.
    + destruct (cnt =? 1); intros Hreg; right; by eapply add_registered.
  - intros id. unfold manager.cancel. by destruct (id =? invalid_timer).
  - split; [done|]. cbn. apply lookup_empty.
  - intros fuel w. by apply update_keys.
  - intros outbox fuel w asked m' w' Hpass.
    apply reentrant_update_pass in Hpass as (Hi & _ & Hnone & _).
    split; [by rewrite Hi|by apply Hnone].
Qed.

(** C9, as the code has it.  A tick of a timer with a positive interval
    ends.  No registration method looks at the duration: the timer stored
    has the interval that was passed, zero and negative ones too.  A due
    timer of count zero with a zero interval and a handler that returns
    never leaves its loop.  A timer whose count is above one leaves its
    loop after at most [count - 1] rounds, whatever its interval. *)
Theorem tick_ends_unless_uncounted_zero_interval :
  (forall fuel t w,
     0 < timer.interval t ->
     (Z.to_nat (fst (clock_now (w_env w)) + 1 - timer.next t) < fuel)%nat ->
     timer.update clock_now fuel t w <> Diverge) /\
  (forall h dur cnt m w id m' w',
     manager.timeout clock_now h dur m w = Return id m' w' \/
     manager.interval clock_now h dur m w = Return id m' w' \/
     (1 <= cnt /\ manager.repeat clock_now h dur cnt m w = Return id m' w') ->
     exists t, manager.timers m' !! id = Some t /\ timer.interval t = dur) /\
  (forall cb fuel t w,
     timer.handler t = Some cb -> never_raises cb ->
     timer.count t = 0 -> timer.interval t = 0 ->
     timer.next t <= fst (clock_now (w_env w)) ->
     timer.update clock_now fuel t w = Diverge) /\
  (forall fuel t w,
     2 <= timer.count t <= int_max ->
     timer.count t - 1 <= Z.of_nat fuel ->
     timer.update clock_now fuel t w <> Diverge).
Proof.
  split_and!.
  - intros fuel t w. apply update_terminates.
  - intros h dur cnt m w id m' w' Hreg.
    assert (exists c, manager.add clock_now h dur c m w = Return id m' w') as [c Hadd].
    { destruct Hreg as [Hreg|[Hreg|[Hc Hreg]]]; [by eexists|by eexists|].
      unfold manager.repeat in Hreg.
      destruct (Z.leb_spec cnt 0); [lia|]. destruct (cnt =? 1); by eexists. }
    apply add_stores in Hadd as (Hnew & _). by eexists.
  - intros cb fuel t w Hh Hcb Hc Hzero. unfold timer.update, timer.update_from.
    rewrite Hh, Hc. destruct (clock_now (w_env w)) as [now e]. cbn. intros Hdue.
    destruct (Z.leb_spec (timer.next t) now); [|lia].
    by apply (loop_forever_zero_period cb).
  - intros fuel t w Hc Hfuel. unfold timer.update, timer.update_from.
    destruct (timer.handler t); [|discriminate].
    destruct (clock_now (w_env w)) as [now e].
    destruct (timer.next t <=? now); [|discriminate].
    destruct (Z.ltb_spec (timer.count t) 0); [lia|].
    destruct (Z.eqb_spec (timer.count t) 0); [lia|].
    destruct (Z.ltb_spec 1 (timer.count t)); [|lia].
    by apply loop_counted_bounded.
Qed.

(** C10.  [clear] sets the counter to zero and empties the map, and leaves
    [remove] as it is: an identifier cancelled before [clear] is still
    pending after it.  So when 0 is pending, the timer that the first
    registration after [clear] stores under 0 is taken out by the next
    pass, though nobody cancelled it and it was not due: its handler has
    not been called. *)
Theorem clear_keeps_pending_removals m :
  manager.ids (manager.clear m) = 0 /\
  manager.timers (manager.clear m) = ∅ /\
  manager.remove (manager.clear m) = manager.remove m /\
  (forall id, id <> invalid_timer ->
     id ∈ manager.remove (manager.clear (manager.cancel id m))) /\
  (forall cb dur w,
     0 ∈ manager.remove m ->
     (forall e, fst (clock_now e) < fst (clock_now (w_env w)) + dur) ->
     exists m1 w1,
       manager.timeout clock_now (Some cb) dur (manager.clear m) w = Return 0 m1 w1 /\
       manager.timers m1 !! 0 =
         Some (timer.Timer (Some cb) (fst (clock_now (w_env w)) + dur) dur (-1)) /\
       forall fuel, exists w2,
         manager.update clock_now fuel m1 w1 = Return tt (manager.Manager 1 ∅ []) w2 /\
         w_calls w2 = w_calls w).
Proof.
  split_and!; try done.
  - intros id Hid. unfold manager.cancel.
    destruct (Z.eqb_spec id invalid_timer); [done|]. cbn.
    apply elem_of_app. right. by apply list_elem_of_singleton.
  - intros cb dur w Hpending Hearly.
    unfold manager.timeout, manager.add, manager.get_id, timer.ctor. cbn.
    rewrite map_size_empty. cbn. rewrite lookup_empty.
    destruct (clock_now (w_env w)) as [now e] eqn:Hclock. cbn in Hearly.
    eexists _, _. split; [done|]. cbn. split; [by rewrite lookup_insert_eq|].
    intros fuel. unfold manager.update. cbn -[manager.sweep].
    rewrite insert_empty, map_to_list_singleton. cbn -[manager.sweep].
    destruct (clock_now e) as [now1 e1] eqn:Hclock1.
    destruct (clock_now e1) as [now2 e2] eqn:Hclock2.
    specialize (Hearly e1). rewrite Hclock2 in Hearly. cbn in Hearly.
    unfold timer.update_from. cbn -[manager.sweep].
    destruct (Z.leb_spec (now + dur) now2); [lia|]. cbn -[manager.sweep].
    exists (World e2 (w_calls w)). split; [|done]. do 2 f_equal.
    apply map_eq. intros j. rewrite sweep_lookup, lookup_empty.
    case_decide as Hj; [done|].
    assert (j <> 0) by (by intros ->).
    rewrite lookup_insert_ne by done. by apply lookup_singleton_ne.
Qed.

End ManagerFacts.

(** ** The theorems at concrete timers and managers *)

Lemma cb_ok_returns : never_raises cb_ok.
Proof. intros e. exists e. reflexivity. Defined.



(** An interval of 10 due at 10, ticked at 35: boundaries 10, 20 and 30.
    Then an interval whose handler cancels its own identifier, in a pass at
    15: the handler runs once, and the pass erases the timer. *)
Lemma interval_catches_up_and_stays_witness :
  (35 < 40 /\
   exists e',
     timer.update clk 4 (timer.Timer (Some cb_ok) 10 10 0) (World 35 0) =
       Return false (timer.Timer (Some cb_ok) 40 10 0) (World e' 3)) /\
  reentrant.update clk outbox_z 3
    (manager.Manager 1 {[ 0 := timer.Timer (Some cb_cancel_0) 10 10 0 ]} [])
    (World 15 0) = Return [0] (manager.Manager 1 ∅ []) (World 0 1) /\
  ((∅ : gmap Z (timer.timer Z)) !! 0 = None <->
     0 ∈ ([] : list Z) \/ (0 ∈ [0] /\ 0 <> invalid_timer)).
Proof.
  split.
  - assert (Hh : timer.handler (timer.Timer (Some cb_ok) 10 10 0) = Some cb_ok)
      by reflexivity.
    assert (Hc : timer.count (timer.Timer (Some cb_ok) 10 10 0) = 0) by reflexivity.
    destruct (interval_catches_up_and_stays clk cb_ok _ Hh Hc) as (Hone & _ & _).
    apply (Hone 4%nat (World 35 0) 35 35 cb_ok_returns);
      [cbn; lia|reflexivity|cbn; lia|vm_compute; lia].
  - assert (Hrun : reentrant.update clk outbox_z 3
              (manager.Manager 1 {[ 0 := timer.Timer (Some cb_cancel_0) 10 10 0 ]} [])
              (World 15 0) = Return [0] (manager.Manager 1 ∅ []) (World 0 1))
      by (vm_compute; reflexivity).
    split; [exact Hrun|].
    assert (Hh : timer.handler (timer.Timer (Some cb_cancel_0) 10 10 0)
                 = Some cb_cancel_0) by reflexivity.
    assert (Hc : timer.count (timer.Timer (Some cb_cancel_0) 10 10 0) = 0)
      by reflexivity.
    destruct (interval_catches_up_and_stays clk cb_cancel_0 _ Hh Hc)
      as (_ & _ & Hpass).
    refine (proj1 (Hpass outbox_z 3%nat
              (manager.Manager 1 {[ 0 := timer.Timer (Some cb_cancel_0) 10 10 0 ]} [])
              (World 15 0) [0] (manager.Manager 1 ∅ []) (World 0 1) 0 _ Hrun)).
    reflexivity.
Defined.


(** [repeat] on a fresh manager: count -3, count 1 and count 5. *)
Lemma repeat_by_count_witness :
  manager.repeat clk (Some cb_ok) 3 (-3) manager.ctor (World 0 0) =
    Return invalid_timer manager.ctor (World 0 0) /\
  (exists id m' w',
     manager.timeout clk (Some cb_ok) 3 manager.ctor (World 0 0) = Return id m' w' /\
     id <> invalid_timer /\
     manager.timers m' !! id = Some (timer.Timer (Some cb_ok) (0 + 3) 3 (-1))) /\
  exists id m' w',
    manager.repeat clk (Some cb_ok) 3 5 manager.ctor (World 0 0) = Return id m' w' /\
    id <> invalid_timer /\
    manager.timers m' !! id = Some (timer.Timer (Some cb_ok) (0 + 3) 3 (5 + 1)).
Proof.
  assert (Hids : id_range (manager.ids (@manager.ctor Z)))
    by (unfold id_range, id_modulus; cbn; lia).
  assert (Hsize : Z.of_nat (size (manager.timers (@manager.ctor Z))) + 2 <= id_modulus)
    by (vm_compute; discriminate).
  assert (Htime : time_range (fst (clk (w_env (World 0 0))) + 3))
    by (unfold time_range; cbn; lia).
  split_and!.
  - apply (repeat_by_count clk (Some cb_ok) 3 (-3) _ _ Hids Hsize Htime). lia.
  - apply (repeat_by_count clk (Some cb_ok) 3 1 _ _ Hids Hsize Htime). reflexivity.
  - apply (repeat_by_count clk (Some cb_ok) 3 5 _ _ Hids Hsize Htime).
    unfold int_max. lia.
Defined.

(** [repeat] with the largest count on a fresh manager. *)
Lemma repeat_int_max_stores_int_min_witness :
  exists id m' w',
    manager.repeat clk (Some cb_ok) 3 int_max manager.ctor (World 0 0) = Return id m' w' /\
    manager.timers m' !! id = Some (timer.Timer (Some cb_ok) (0 + 3) 3 int_min) /\
    int_min < 0 /\ int_min <> int_max + 1.
Proof.
  apply (repeat_int_max_stores_int_min clk (Some cb_ok) 3 manager.ctor (World 0 0)).
  - unfold id_range, id_modulus. cbn. lia.
  - vm_compute. discriminate.
  - unfold time_range. cbn. lia.
Defined.

(** Cancelling 7, which no timer holds, before a pass over one due timeout. *)
Lemma cancel_idempotent_witness :
  manager.update clk 1
    (manager.cancel 7 (manager.Manager 1 {[0 := timer.Timer (Some cb_ok) 10 10 (-1)]} []))
    (World 100 0) =
  Return tt (manager.Manager 1 ∅ []) (World 100 1).
Proof.
  destruct (cancel_idempotent clk 7
              (manager.Manager 1 {[0 := timer.Timer (Some cb_ok) 10 10 (-1)]} []))
    as (_ & _ & Hgone).
  apply (Hgone eq_refl 1%nat (World 100 0)). vm_compute. reflexivity.
Defined.

(** The next identifier of a manager that holds identifier 0. *)
Lemma ids_fresh_and_valid_witness :
  1 <> invalid_timer /\
  manager.timers (manager.Manager 1 {[0 := timer.Timer (Some cb_ok) 10 10 (-1)]} [])
    !! 1 = None.
Proof.
  assert (Hv : keys_valid
                 (manager.Manager 1 {[0 := timer.Timer (Some cb_ok) 10 10 (-1)]} [])).
  { split; [unfold id_range, id_modulus; cbn; lia|reflexivity]. }
  destruct (ids_fresh_and_valid clk _ Hv) as (_ & Hid & _).
  destruct (Hid 1 (manager.Manager 2 {[0 := timer.Timer (Some cb_ok) 10 10 (-1)]} []))
    as (Hne & Hfree & _); [vm_compute; reflexivity|].
  split; [exact Hne|exact Hfree].
Defined.

(** A counted timer whose handler raises at its first firing. *)
Lemma raise_skips_advance_witness :
  timer.update clk 2 (timer.Timer (Some cb_bad) 0 5 3) (World 0 0) =
    Throw (timer.Timer (Some cb_bad) 0 5 3) (World 0 1).
Proof.
  assert (Hmax : timer.count (timer.Timer (Some cb_bad) 0 5 3) <= int_max)
    by (unfold int_max; cbn; lia).
  destruct (raise_skips_advance clk 2 (timer.Timer (Some cb_bad) 0 5 3) (World 0 0) Hmax)
    as (Hfirst & _ & _).
  apply (Hfirst cb_bad 0 0 0); [reflexivity|reflexivity|cbn; lia|cbn; lia|reflexivity|lia].
Defined.

(** A tick of a timer with interval 10 ends; a tick of an uncounted timer
    with interval 0 does not. *)
Lemma tick_ends_unless_uncounted_zero_interval_witness :
  timer.update clk 27 (timer.Timer (Some cb_ok) 10 10 0) (World 35 0) <> Diverge /\
  timer.update clk 1000 (timer.Timer (Some cb_ok) 0 0 0) (World 0 0) = Diverge.
Proof.
  destruct (tick_ends_unless_uncounted_zero_interval clk) as (Hends & _ & Hspins & _).
  split.
  - apply Hends; [cbn; lia|vm_compute; lia].
  - apply (Hspins cb_ok); [reflexivity|exact cb_ok_returns|reflexivity|reflexivity|].
    cbn. lia.
Defined.

(** Identifier 0 cancelled, the manager cleared, a timeout registered: it
    gets identifier 0 and the first pass takes it out unfired. *)
Lemma clear_keeps_pending_removals_witness :
  exists m1 w1,
    manager.timeout clk_100 (Some cb_ok) 10
      (manager.clear (manager.cancel 0 manager.ctor)) (World 0 0) = Return 0 m1 w1 /\
    manager.timers m1 !! 0 = Some (timer.Timer (Some cb_ok) (100 + 10) 10 (-1)) /\
    forall fuel, exists w2,
      manager.update clk_100 fuel m1 w1 = Return tt (manager.Manager 1 ∅ []) w2 /\
      w_calls w2 = 0%nat.
Proof.
  destruct (clear_keeps_pending_removals clk_100 (manager.cancel 0 manager.ctor))
    as (_ & _ & _ & _ & Hreuse).
  apply (Hreuse cb_ok 10 (World 0 0)).
  - vm_compute. left.
  - intros e. cbn. lia.
Defined.

(** ** Where the code departs from three statements *)


(** Against C8: the same counted timer ticked at its due time, once with a
    handler that raises and once with one that returns.  The first is left
    with [next = 0] and [count = 3], the second with [next = 5] and
    [count = 2]. *)
Lemma raise_changes_schedule_cex :
  schedule_after (timer.update clk 2 (timer.Timer (Some cb_bad) 0 5 3) (World 0 0))
    = Some (0, 3) /\
  schedule_after (timer.update clk 2 (timer.Timer (Some cb_ok) 0 5 3) (World 0 0))
    = Some (5, 2) /\
  schedule_after (timer.update clk 2 (timer.Timer (Some cb_bad) 0 5 3) (World 0 0))
    <> schedule_after (timer.update clk 2 (timer.Timer (Some cb_ok) 0 5 3) (World 0 0)).
Proof. split_and!; [reflexivity|reflexivity|]. vm_compute. discriminate. Qed.

(** Against the last part of C9: a due timer of count 3 (which is [>= 0])
    and interval 0 leaves its loop after two firings. *)
Lemma counted_zero_interval_ends_cex :
  timer.update clk 2 (timer.Timer (Some cb_ok) 0 0 3) (World 0 0) =
    Return true (timer.Timer (Some cb_ok) 0 0 1) (World 0 2) /\
  ~ (forall fuel,
       timer.update clk fuel (timer.Timer (Some cb_ok) 0 0 3) (World 0 0) = Diverge).
Proof.
  split; [reflexivity|]. intros Hspin. specialize (Hspin 2%nat). discriminate.
Qed.

(** * Further properties of the timer *)

Section TimerMore.
Context {env : Type}.
Variable clock_now : env -> time * env.
Implicit Types (t : timer.timer env) (w : world env) (cb : callback env).

(** *** What a tick that returns has done *)

Lemma iter_shift (f : env -> env) (k : nat) (e : env) :
  Nat.iter k f (f e) = Nat.iter (S k) f e.
Proof. symmetry. apply Nat.iter_succ_r. Qed.

Lemma loop_forever_account fuel now : forall t w fin t' w',
  timer.loop_forever fuel now t w = Return fin t' w' ->
  exists k : nat,
    w_calls w' = (w_calls w + k)%nat /\
    timer.next t' = timer.next t + Z.of_nat k * timer.interval t /\
    timer.handler t' = timer.handler t /\
    timer.interval t' = timer.interval t /\
    timer.count t' = timer.count t /\
    (forall cb f, timer.handler t = Some cb -> (forall e, cb e = Returned (f e)) ->
                  w_env w' = Nat.iter k f (w_env w)).
Proof.
  induction fuel as [|fuel IH]; intros t w fin t' w'; simpl; [discriminate|].
  destruct (timer.next t <=? now).
  - unfold timer.execute. destruct (timer.handler t) as [cb|] eqn:Hh; [|discriminate].
    destruct (cb (w_env w)) as [e|e] eqn:He; [|discriminate].
    intros Hrun. apply IH in Hrun as (k & ? & ? & ? & ? & ? & Henv). cbn in *.
    exists (S k). split_and!; try done; try lia.
    intros cb' f [= <-] Hf. rewrite (Henv cb f eq_refl Hf).
    rewrite Hf in He. injection He as <-. apply iter_shift.
  - intros [= <- <- <-]. exists 0%nat. split_and!; try done; lia.
Qed.

Lemma loop_counted_account fuel now : forall t w fin t' w',
  2 <= timer.count t <= int_max ->
  timer.loop_counted fuel now t w = Return fin t' w' ->
  exists k : nat,
    w_calls w' = (w_calls w + k)%nat /\
    timer.next t' = timer.next t + Z.of_nat k * timer.interval t /\
    timer.handler t' = timer.handler t /\
    timer.interval t' = timer.interval t /\
    timer.count t' = timer.count t - Z.of_nat k /\
    (if fin then timer.count t' = 1 else 2 <= timer.count t') /\
    (forall cb f, timer.handler t = Some cb -> (forall e, cb e = Returned (f e)) ->
                  w_env w' = Nat.iter k f (w_env w)).
Proof.
  induction fuel as [|fuel IH]; intros t w fin t' w' Hc; simpl; [discriminate|].
  destruct (timer.next t <=? now).
  - unfold timer.execute. destruct (timer.handler t) as [cb|] eqn:Hh; [|discriminate].
    destruct (cb (w_env w)) as [e|e] eqn:He; [|discriminate]. cbn -[int_wrap].
    rewrite int_wrap_id by (unfold int_range, int_min, int_max in *; lia).
    destruct (Z.eqb_spec (timer.count t - 1) 1) as [H1|H1].
    + intros [= <- <- <-]. exists 1%nat. cbn. split_and!; try done; try lia.
      intros cb' f [= <-] Hf. rewrite Hf in He. by injection He as <-.
    + intros Hrun. apply IH in Hrun as (k & ? & ? & ? & ? & ? & ? & Henv);
        [|cbn; lia]. cbn in *.
      exists (S k). split_and!; try done; try lia; try (destruct fin; lia).
      intros cb' f [= <-] Hf. rewrite (Henv cb f eq_refl Hf).
      rewrite Hf in He. injection He as <-. apply iter_shift.
  - intros [= <- <- <-]. exists 0%nat. split_and!; try done; lia.
Qed.

Lemma update_account fuel t w fin t' w' :
  timer.count t <= int_max ->
  timer.update clock_now fuel t w = Return fin t' w' ->
  exists k : nat,
    w_calls w' = (w_calls w + k)%nat /\
    timer.next t' = timer.next t + Z.of_nat k * timer.interval t /\
    timer.handler t' = timer.handler t /\
    timer.interval t' = timer.interval t /\
    timer.count t' =
      (if 1 <? timer.count t then timer.count t - Z.of_nat k else timer.count t) /\
    (1 < timer.count t -> 1 <= timer.count t') /\
    (timer.count t < 0 -> (k <= 1)%nat) /\
    (forall cb f, timer.handler t = Some cb -> (forall e, cb e = Returned (f e)) ->
                  w_env w' = Nat.iter k f (snd (clock_now (w_env w)))).
Proof.
  intros Hmax. unfold timer.update, timer.update_from.
  destruct (timer.handler t) as [cb|] eqn:Hh.
  2:{ intros [= <- <- <-]. exists 0%nat. rewrite Hh.
      split_and!; try done; try lia. destruct (1 <? timer.count t); lia. }
  destruct (clock_now (w_env w)) as [now e]. cbn [snd].
  destruct (timer.next t <=? now).
  2:{ intros [= <- <- <-]. exists 0%nat. rewrite Hh. cbn.
      split_and!; try done; try lia. destruct (1 <? timer.count t); lia. }
  destruct (Z.ltb_spec (timer.count t) 0).
  { unfold timer.execute. rewrite Hh. cbn.
    destruct (cb e) as [e1|e1] eqn:He; [|discriminate]. intros [= <- <- <-].
    exists 1%nat. cbn. destruct (Z.ltb_spec 1 (timer.count t)); [lia|].
    split_and!; try done; try lia.
    intros cb' f [= <-] Hf. rewrite Hf in He. by injection He as <-. }
  destruct (Z.eqb_spec (timer.count t) 0) as [H0|H0].
  { intros Hrun. apply loop_forever_account in Hrun as (k & ? & ? & ? & ? & ? & Henv).
    cbn in *. exists k. rewrite H0 in *. cbn. rewrite Hh in *.
    split_and!; try done; lia. }
  destruct (Z.ltb_spec 1 (timer.count t)).
  - intros Hrun. apply loop_counted_account in Hrun
      as (k & ? & ? & ? & ? & ? & Hfin & Henv); [|lia].
    cbn in *. exists k. rewrite Hh in *.
    split_and!; try done; try lia. destruct fin; lia.
  - intros [= <- <- <-]. exists 0%nat. rewrite Hh. cbn.
    split_and!; try done; lia.
Qed.

(** X1.  Whatever a tick that returns did, it did in whole firings: it
    called the handler [k] times and moved [next] on by [k] intervals; it
    left the handler and the interval alone; it took [k] off a count above
    one (never going below one) and left any other count alone; and a
    timer with a negative count was fired once at most. *)
Theorem tick_accounting fuel t w fin t' w' :
  timer.count t <= int_max ->
  timer.update clock_now fuel t w = Return fin t' w' ->
  exists k : nat,
    w_calls w' = (w_calls w + k)%nat /\
    timer.next t' = timer.next t + Z.of_nat k * timer.interval t /\
    timer.handler t' = timer.handler t /\
    timer.interval t' = timer.interval t /\
    timer.count t' =
      (if 1 <? timer.count t then timer.count t - Z.of_nat k else timer.count t) /\
    (1 < timer.count t -> 1 <= timer.count t') /\
    (timer.count t < 0 -> (k <= 1)%nat).
Proof.
  intros Hmax Hup.
  destruct (update_account _ _ _ _ _ _ Hmax Hup) as (k & ? & ? & ? & ? & ? & ? & ? & _).
  exists k. by split_and!.
Qed.

(** X2.  A handler that always returns acts on the environment as a
    function [f].  The environment a tick leaves is then [f] applied, once
    per call that the tick made, to the environment the clock reading
    left: nothing but the clock and the handler touches it, and the calls
    are made one after the other. *)
Theorem tick_applies_handler fuel t w fin t' w' cb (f : env -> env) :
  timer.handler t = Some cb -> (forall e, cb e = Returned (f e)) ->
  timer.count t <= int_max ->
  timer.update clock_now fuel t w = Return fin t' w' ->
  w_env w' = Nat.iter (w_calls w' - w_calls w) f (snd (clock_now (w_env w))).
Proof.
  intros Hh Hf Hmax Hup.
  destruct (update_account _ _ _ _ _ _ Hmax Hup) as (k & Hcalls & _ & _ & _ & _ & _ & _ & Henv).
  rewrite (Henv cb f Hh Hf). f_equal. lia.
Qed.

(** *** When the uncounted loop ends *)



(** *** Ticks that could have been skipped *)

Lemma loop_forever_more fuel now : forall fuel' t w fin t' w',
  timer.loop_forever fuel now t w = Return fin t' w' -> (fuel <= fuel')%nat ->
  timer.loop_forever fuel' now t w = Return fin t' w'.
Proof.
  induction fuel as [|fuel IH]; intros fuel' t w fin t' w'; simpl; [discriminate|].
  intros Hrun Hle. destruct fuel' as [|fuel']; [lia|]. simpl.
  destruct (timer.next t <=? now); [|done].
  destruct (timer.execute t w); try discriminate. apply IH; [done|lia].
Qed.

Lemma loop_counted_more fuel now : forall fuel' t w fin t' w',
  timer.loop_counted fuel now t w = Return fin t' w' -> (fuel <= fuel')%nat ->
  timer.loop_counted fuel' now t w = Return fin t' w'.
Proof.
  induction fuel as [|fuel IH]; intros fuel' t w fin t' w'; simpl; [discriminate|].
  intros Hrun Hle. destruct fuel' as [|fuel']; [lia|]. simpl.
  destruct (timer.next t <=? now); [|done].
  destruct (timer.execute t w); try discriminate. cbn -[int_wrap] in *.
  destruct (_ =? 1); [done|]. apply IH; [done|lia].
Qed.

(** A run of the uncounted loop at [now1], then one at a later [now2], do
    what one run at [now2] does. *)
Lemma loop_forever_merge now1 now2 f2 : forall f1 t w fin t1 w1 r t2 w2,
  now1 <= now2 ->
  timer.loop_forever f1 now1 t w = Return fin t1 w1 ->
  timer.loop_forever f2 now2 t1 w1 = Return r t2 w2 ->
  timer.loop_forever (f1 + f2) now2 t w = Return r t2 w2.
Proof.
  induction f1 as [|f1 IH]; intros t w fin t1 w1 r t2 w2 Hle; simpl; [discriminate|].
  destruct (Z.leb_spec (timer.next t) now1).
  - destruct (Z.leb_spec (timer.next t) now2); [|lia].
    destruct (timer.execute t w) as [[] ta wa| |]; try discriminate.
    intros Hfirst Hsecond. by apply (IH _ _ fin t1 w1).
  - intros [= <- <- <-] Hsecond.
    change (timer.loop_forever (S (f1 + f2)) now2 t w = Return r t2 w2).
    apply (loop_forever_more f2); [done|lia].
Qed.

Lemma loop_counted_merge now1 now2 f2 : forall f1 t w t1 w1 r t2 w2,
  now1 <= now2 ->
  timer.loop_counted f1 now1 t w = Return false t1 w1 ->
  timer.loop_counted f2 now2 t1 w1 = Return r t2 w2 ->
  timer.loop_counted (f1 + f2) now2 t w = Return r t2 w2.
Proof.
  induction f1 as [|f1 IH]; intros t w t1 w1 r t2 w2 Hle; simpl; [discriminate|].
  destruct (Z.leb_spec (timer.next t) now1).
  - destruct (Z.leb_spec (timer.next t) now2); [|lia].
    destruct (timer.execute t w) as [[] ta wa| |]; try discriminate.
    cbn -[int_wrap]. destruct (_ =? 1); [discriminate|].
    intros Hfirst Hsecond. by apply (IH _ _ t1 w1).
  - intros [= <- <-] Hsecond.
    change (timer.loop_counted (S (f1 + f2)) now2 t w = Return r t2 w2).
    apply (loop_counted_more f2); [done|lia].
Qed.

Lemma update_from_more fuel fuel' now t w fin t' w' :
  timer.update_from fuel now t w = Return fin t' w' -> (fuel <= fuel')%nat ->
  timer.update_from fuel' now t w = Return fin t' w'.
Proof.
  unfold timer.update_from. intros Hrun Hle.
  destruct (timer.next t <=? now); [|done].
  destruct (timer.count t <? 0); [done|].
  destruct (timer.count t =? 0); [by apply (loop_forever_more fuel)|].
  destruct (1 <? timer.count t); [by apply (loop_counted_more fuel)|done].
Qed.

Lemma update_from_as_forever f now t w r t' w' :
  timer.count t = 0 ->
  timer.update_from f now t w = Return r t' w' ->
  timer.loop_forever (S f) now t w = Return r t' w'.
Proof.
  intros Hc. unfold timer.update_from. rewrite Hc. cbn [Z.ltb Z.eqb Z.compare].
  destruct (timer.next t <=? now) eqn:Hdue.
  - intros Hrun. apply (loop_forever_more f); [done|lia].
  - intros Hrun. simpl. by rewrite Hdue.
Qed.

Lemma update_from_as_counted f now t w r t' w' :
  1 < timer.count t ->
  timer.update_from f now t w = Return r t' w' ->
  timer.loop_counted (S f) now t w = Return r t' w'.
Proof.
  intros Hc. unfold timer.update_from.
  destruct (timer.next t <=? now) eqn:Hdue.
  - destruct (Z.ltb_spec (timer.count t) 0); [lia|].
    destruct (Z.eqb_spec (timer.count t) 0); [lia|].
    destruct (Z.ltb_spec 1 (timer.count t)); [|lia].
    intros Hrun. apply (loop_counted_more f); [done|lia].
  - intros Hrun. simpl. by rewrite Hdue.
Qed.

(** X4.  [now1 <= now2] are two clock readings.  If the part of [update]
    that follows the reading, run with [now1], reports "not finished",
    then running it again with [now2] ends exactly as running it with
    [now2] in the first place: same answer, same timer, same calls on the
    same environment.  Ticks that found nothing finished can be merged
    into the tick that follows them. *)
Theorem skipped_tick_changes_nothing f1 f2 now1 now2 t w t1 w1 r t2 w2 :
  timer.count t <= int_max -> now1 <= now2 ->
  timer.update_from f1 now1 t w = Return false t1 w1 ->
  timer.update_from f2 now2 t1 w1 = Return r t2 w2 ->
  timer.update_from (S (f1 + f2)) now2 t w = Return r t2 w2.
Proof.
  intros Hmax Hle Hfirst Hsecond. pose proof Hfirst as Hfirst'.
  unfold timer.update_from in Hfirst.
  destruct (Z.leb_spec (timer.next t) now1) as [Hdue|Hnot].
  2:{ injection Hfirst as <- <-. apply (update_from_more f2); [done|lia]. }
  unfold timer.update_from.
  destruct (Z.leb_spec (timer.next t) now2); [|lia].
  destruct (Z.ltb_spec (timer.count t) 0) as [Hneg|Hneg].
  { destruct (timer.execute t w); discriminate. }
  destruct (Z.eqb_spec (timer.count t) 0) as [H0|H0].
  - pose proof (loop_forever_account _ _ _ _ _ _ _ Hfirst) as (_ & _ & _ & _ & _ & Hc & _).
    apply update_from_as_forever in Hsecond; [|congruence].
    rewrite <- Nat.add_succ_r. by apply (loop_forever_merge now1 now2 _ _ _ _ false t1 w1).
  - destruct (Z.ltb_spec 1 (timer.count t)) as [H1|H1]; [|discriminate].
    assert (Hr : 2 <= timer.count t <= int_max) by lia.
    pose proof (loop_counted_account _ _ _ _ _ _ _ Hr Hfirst)
      as (_ & _ & _ & _ & _ & _ & Hc & _).
    apply update_from_as_counted in Hsecond; [|lia].
    rewrite <- Nat.add_succ_r. by apply (loop_counted_merge now1 now2 _ _ _ _ t1 w1).
Qed.

End TimerMore.

(** * Further properties of the manager *)

Section ManagerMore.
Context {env : Type}.
Variable clock_now : env -> time * env.
Implicit Types (m : manager.manager env) (w : world env)
  (tm : gmap Z (timer.timer env)) (t : timer.timer env).

(** *** The first loop does not read [remove] *)

(** The first loop of [update] only appends to [remove]: started with any
    list it does what it does started with the empty one, and leaves its
    appendix behind that list. *)
Lemma tick_all_frame fuel : forall l i tm rm w,
  manager.tick_all clock_now fuel l (manager.Manager i tm rm) w =
  match manager.tick_all clock_now fuel l (manager.Manager i tm []) w with
  | Return a m' w' =>
      Return a (manager.Manager (manager.ids m') (manager.timers m')
                                (rm ++ manager.remove m')) w'
  | Throw m' w' =>
      Throw (manager.Manager (manager.ids m') (manager.timers m')
                             (rm ++ manager.remove m')) w'
  | Diverge => Diverge
  end.
Proof.
  induction l as [|[id0 t0] l IH]; intros i tm rm w; simpl.
  - by rewrite app_nil_r.
  - destruct (clock_now (w_env w)) as [now0 e0].
    destruct (timer.update _ _ _ _) as [fin t0' w0|t0' w0|]; [| |done].
    + rewrite IH. symmetry. rewrite IH. symmetry.
      destruct (manager.tick_all _ _ _ _ _) as [a m' w'|m' w'|]; [| |done].
      * destruct fin; cbn; by rewrite <- ?app_assoc.
      * destruct fin; cbn; by rewrite <- ?app_assoc.
    + cbn. by rewrite app_nil_r.
Qed.

(** X5.  [cancel] changes what the next pass erases and nothing else.  If
    the pass over [m] ends in [m2], the pass over [m] after [cancel(id)]
    makes the same calls on the same environment -- the cancelled timer is
    still ticked, and fires if it is due -- and ends in [m2] without
    [id]. *)
Theorem cancel_only_erases fuel id m w m2 w2 :
  id <> invalid_timer ->
  manager.update clock_now fuel m w = Return tt m2 w2 ->
  manager.update clock_now fuel (manager.cancel id m) w =
    Return tt (manager.Manager (manager.ids m2) (delete id (manager.timers m2)) []) w2.
Proof.
  intros Hid. unfold manager.update, manager.cancel.
  destruct (Z.eqb_spec id invalid_timer); [done|].
  destruct m as [i tm rm]. cbn -[manager.sweep].
  rewrite (tick_all_frame fuel _ i tm rm), (tick_all_frame fuel _ i tm (rm ++ [id])).
  destruct (manager.tick_all _ _ _ _ _) as [a m' w'|m' w'|]; try discriminate.
  cbn -[manager.sweep]. intros [= <- <-]. cbn -[manager.sweep]. do 2 f_equal.
  apply map_eq. intros j. rewrite sweep_lookup, lookup_delete, sweep_lookup.
  destruct (decide (id = j)) as [->|Hne].
  - rewrite decide_True; [done|]. rewrite !elem_of_app, list_elem_of_singleton. tauto.
  - assert (Hiff : j ∈ (rm ++ [id]) ++ manager.remove m' <-> j ∈ rm ++ manager.remove m').
    { rewrite !elem_of_app, list_elem_of_singleton. intuition congruence. }
    destruct (decide (j ∈ (rm ++ [id]) ++ manager.remove m')) as [H1|H1];
      destruct (decide (j ∈ rm ++ manager.remove m')) as [H2|H2]; try done; tauto.
Qed.

(** *** A pass that an exception leaves *)

Lemma tick_all_throw fuel : forall l m w m' w',
  (forall id t, (id, t) ∈ l -> is_Some (manager.timers m !! id)) ->
  manager.tick_all clock_now fuel l m w = Throw m' w' ->
  manager.ids m' = manager.ids m /\
  (forall k, is_Some (manager.timers m' !! k) <-> is_Some (manager.timers m !! k)) /\
  exists fins, manager.remove m' = manager.remove m ++ fins.
Proof.
  induction l as [|[id0 t0] l IH]; intros m w m' w' Hl; simpl; [discriminate|].
  assert (Hin0 : is_Some (manager.timers m !! id0)) by (apply (Hl id0 t0); left).
  assert (Hdom : forall t' k, is_Some (<[id0 := t']> (manager.timers m) !! k)
                              <-> is_Some (manager.timers m !! k)).
  { intros t' k. destruct (decide (id0 = k)) as [<-|Hne].
    - rewrite lookup_insert_eq. split; [done|by eexists].
    - by rewrite lookup_insert_ne. }
  destruct (clock_now (w_env w)) as [now0 e0].
  destruct (timer.update _ _ _ _) as [fin t0' w0|t0' w0|] eqn:Hup; [| |discriminate].
  - intros Hrun. apply IH in Hrun as (Hi & Hk & fins & Hrm); cbn in *.
    + split_and!; [done| |].
      * intros k. by rewrite Hk, Hdom.
      * destruct fin; eexists; rewrite Hrm; by rewrite <- ?app_assoc.
    + intros id t Hin. apply Hdom. apply (Hl id t). by right.
  - intros [= <- <-]. cbn. split_and!; [done|apply Hdom|].
    exists []. by rewrite app_nil_r.
Qed.

(** X6.  When an exception leaves [update], the manager has lost nothing:
    the counter is the same, every identifier that held a timer still
    holds one, and [remove] is what it was with, perhaps, more behind it.
    The second loop has not run, so what was cancelled is still pending
    and what finished during the pass is still stored. *)
Theorem failed_pass_keeps_everything fuel m w m' w' :
  manager.update clock_now fuel m w = Throw m' w' ->
  manager.ids m' = manager.ids m /\
  (forall k, is_Some (manager.timers m' !! k) <-> is_Some (manager.timers m !! k)) /\
  exists fins, manager.remove m' = manager.remove m ++ fins.
Proof.
  unfold manager.update.
  destruct (manager.tick_all _ _ _ _ _) as [[] m1 w1|m1 w1|] eqn:Hrun; try discriminate.
  intros [= <- <-]. apply tick_all_throw in Hrun; [done|].
  intros id t Hin%elem_of_map_to_list. by eexists.
Qed.

(** *** Timers that have nothing to do *)

(** X7.  A timer registered with an empty callback is never fired: its
    tick calls nothing, reads no clock and reports "finished", so the
    first pass that runs to its end erases it, whatever its duration. *)
Theorem empty_callback_erased_unfired dur cnt m w id m1 w1 :
  manager.timeout clock_now None dur m w = Return id m1 w1 \/
  manager.interval clock_now None dur m w = Return id m1 w1 \/
  (1 <= cnt /\ manager.repeat clock_now None dur cnt m w = Return id m1 w1) ->
  (exists t, manager.timers m1 !! id = Some t /\
             forall fuel w2, timer.update clock_now fuel t w2 = Return true t w2) /\
  (forall fuel w2 m2 w3,
     manager.update clock_now fuel m1 w2 = Return tt m2 w3 ->
     manager.timers m2 !! id = None).
Proof.
  intros Hreg.
  assert (exists c, manager.add clock_now None dur c m w = Return id m1 w1) as [c Hadd].
  { destruct Hreg as [Hreg|[Hreg|[Hc Hreg]]]; [by eexists|by eexists|].
    unfold manager.repeat in Hreg.
    destruct (Z.leb_spec cnt 0); [lia|]. destruct (cnt =? 1); by eexists. }
  apply add_stores in Hadd as (Hnew & _). split.
  - eexists. split; [exact Hnew|]. done.
  - intros fuel w2 m2 w3 Hpass.
    apply update_pass in Hpass as (_ & _ & _ & Hin).
    destruct (Hin _ _ Hnew) as (wa & fin & t' & wb & Hup & ->).
    cbn in Hup. by injection Hup as <- _ _.
Qed.

Lemma iter_twice_more {A} (f : A -> A) n x :
  Nat.iter (2 * S n) f x = Nat.iter (2 * n) f (f (f x)).
Proof.
  replace (2 * S n)%nat with (S (S (2 * n))) by lia.
  by rewrite !Nat.iter_succ_r.
Qed.

Lemma tick_all_idle fuel : forall l m w,
  (forall id t, (id, t) ∈ l ->
     manager.timers m !! id = Some t /\ is_Some (timer.handler t) /\
     forall n, (n < 2 * length l)%nat ->
       fst (clock_now (Nat.iter n (fun e => snd (clock_now e)) (w_env w)))
         < timer.next t) ->
  manager.tick_all clock_now fuel l m w =
    Return tt m
      (World (Nat.iter (2 * length l) (fun e => snd (clock_now e)) (w_env w))
             (w_calls w)).
Proof.
  induction l as [|[id0 t0] l IH]; intros m w Hl.
  - by destruct w.
  - change (length ((id0, t0) :: l)) with (S (length l)) in *.
    rewrite iter_twice_more.
    destruct (Hl id0 t0) as (Hlook & [cb Hh] & Hearly); [left|].
    pose proof (Hearly 1%nat ltac:(lia)) as Hfirst.
    assert (Hrest : forall id t, (id, t) ∈ l ->
              manager.timers m !! id = Some t /\ is_Some (timer.handler t) /\
              forall n, (n < 2 * length l)%nat ->
                fst (clock_now (Nat.iter n (fun e => snd (clock_now e))
                       (snd (clock_now (snd (clock_now (w_env w)))))))
                  < timer.next t).
    { intros id t Hin. destruct (Hl id t) as (? & ? & Hn); [by right|].
      split_and!; try done. intros n Hlt.
      specialize (Hn (S (S n)) ltac:(lia)). by rewrite !Nat.iter_succ_r in Hn. }
    clear Hl Hearly. simpl in Hfirst.
    cbn [manager.tick_all].
    destruct (clock_now (w_env w)) as [now0 e0]. cbn [snd] in *.
    destruct (clock_now e0) as [now1 e1] eqn:Hclock. cbn [snd fst] in *.
    rewrite (update_not_due clock_now cb _ _ _ now1 e1); try done.
    rewrite insert_id by done.
    replace (manager.Manager (manager.ids m) (manager.timers m) (manager.remove m))
      with m by (by destruct m).
    by rewrite IH.
Qed.

(** X8.  A pass over a manager in which nothing is pending removal and no
    timer is due at any clock reading of the pass (two readings for each
    timer, made one after the other from the environment the pass starts
    in) ends, whatever the fuel, and leaves the manager as it was: no
    handler is called, no timer is touched, and the environment is the one
    the clock readings leave. *)
Theorem idle_pass_changes_nothing fuel m w :
  (forall id t, manager.timers m !! id = Some t ->
     is_Some (timer.handler t) /\
     forall n, (n < 2 * size (manager.timers m))%nat ->
       fst (clock_now (Nat.iter n (fun e => snd (clock_now e)) (w_env w)))
         < timer.next t) ->
  manager.remove m = [] ->
  manager.update clock_now fuel m w =
    Return tt m
      (World (Nat.iter (2 * size (manager.timers m))
                (fun e => snd (clock_now e)) (w_env w))
             (w_calls w)).
Proof.
  intros Hidle Hrm. unfold manager.update.
  rewrite tick_all_idle.
  - rewrite Hrm, length_map_to_list. cbn. destruct m. cbn in *. by subst.
  - intros id t Hin%elem_of_map_to_list. rewrite length_map_to_list.
    split; [done|]. by apply (Hidle id).
Qed.

(** *** Identifiers in order *)

Lemma get_id_exact m :
  keys_below m -> manager.ids m < invalid_timer ->
  manager.get_id m =
    Some (manager.ids m,
          manager.Manager (manager.ids m + 1) (manager.timers m) (manager.remove m)).
Proof.
  intros [Hpos Hbelow] Hsmall. unfold manager.get_id. simpl.
  destruct (Z.eqb_spec (manager.ids m) invalid_timer); [lia|].
  destruct (manager.timers m !! manager.ids m) eqn:Hlook.
  { destruct (Hbelow (manager.ids m)); [by eexists|lia]. }
  rewrite Z.mod_small; [done|].
  rewrite invalid_timer_value in Hsmall. unfold id_modulus. lia.
Qed.

Lemma add_exact h dur cnt m w :
  keys_below m -> manager.ids m < invalid_timer ->
  manager.add clock_now h dur cnt m w =
    Return (manager.ids m)
      (manager.Manager (manager.ids m + 1)
         (<[manager.ids m := timer.Timer h (fst (clock_now (w_env w)) + dur) dur cnt]>
            (manager.timers m))
         (manager.remove m))
      (World (snd (clock_now (w_env w))) (w_calls w)).
Proof.
  intros Hkb Hsmall. unfold manager.add, timer.ctor.
  rewrite (get_id_exact m Hkb Hsmall). by destruct (clock_now (w_env w)).
Qed.

Lemma keys_below_insert m t :
  keys_below m ->
  keys_below (manager.Manager (manager.ids m + 1)
                (<[manager.ids m := t]> (manager.timers m)) (manager.remove m)).
Proof.
  intros [Hpos Hbelow]. split; cbn; [lia|]. intros k.
  destruct (decide (manager.ids m = k)) as [<-|Hne].
  - intros _. lia.
  - rewrite lookup_insert_ne by done. intros Hk%Hbelow. lia.
Qed.

(** X9.  As long as the counter is above every identifier in use and
    below the sentinel (the state of a manager whose counter has not
    wrapped around), a registration returns the counter itself and moves
    it on by one: the identifiers handed out are consecutive.  When the
    clock reading plus the duration is a tick count of the clock, the new
    timer is due at that sum; no handler is called and [remove] is left
    alone.  Every method keeps the counter above the identifiers in use,
    a pass whose handlers cancel too; [clear] does so by starting again
    at zero. *)
Theorem ids_count_up m :
  keys_below m ->
  (manager.ids m < invalid_timer ->
   forall h dur cnt w,
     time_range (fst (clock_now (w_env w)) + dur) ->
     let stored c :=
       Return (manager.ids m)
         (manager.Manager (manager.ids m + 1)
            (<[manager.ids m := timer.Timer h (fst (clock_now (w_env w)) + dur) dur c]>
               (manager.timers m))
            (manager.remove m))
         (World (snd (clock_now (w_env w))) (w_calls w)) in
     manager.timeout clock_now h dur m w = stored (-1) /\
     manager.interval clock_now h dur m w = stored 0 /\
     (2 <= cnt < int_max -> manager.repeat clock_now h dur cnt m w = stored (cnt + 1)) /\
     forall c, keys_below
                 (manager.Manager (manager.ids m + 1)
                    (<[manager.ids m := timer.Timer h (fst (clock_now (w_env w)) + dur) dur c]>
                       (manager.timers m))
                    (manager.remove m))) /\
  (forall id, keys_below (manager.cancel id m)) /\
  keys_below (manager.clear m) /\
  (forall fuel w m' w',
     manager.update clock_now fuel m w = Return tt m' w' -> keys_below m') /\
  (forall (outbox : env -> list Z * env) fuel w asked m' w',
     reentrant.update clock_now outbox fuel m w = Return asked m' w' ->
     keys_below m').
Proof.
  intros Hkb. split_and!.
  - intros Hsmall h dur cnt w _ stored. subst stored. cbn beta. split_and!.
    + by apply add_exact.
    + by apply add_exact.
    + intros Hc. unfold manager.repeat.
      destruct (Z.leb_spec cnt 0); [lia|]. destruct (Z.eqb_spec cnt 1); [lia|].
      rewrite int_wrap_id by (unfold int_range, int_min, int_max in *; lia).
      by apply add_exact.
    + intros c. by apply keys_below_insert.
  - intros id. unfold manager.cancel. by destruct (id =? invalid_timer).
  - split; cbn; [done|]. intros k [t Hk]. by rewrite lookup_empty in Hk.
  - intros fuel w m' w' Hpass. destruct Hkb as [Hpos Hbelow].
    apply update_pass in Hpass as (Hids & _ & Hnone & _).
    split; [by rewrite Hids|]. intros k Hk. rewrite Hids. apply Hbelow.
    destruct (manager.timers m !! k) eqn:Hlook; [by eexists|].
    rewrite (Hnone k Hlook) in Hk. by destruct Hk.
  - intros outbox fuel w asked m' w' Hpass. destruct Hkb as [Hpos Hbelow].
    apply (reentrant_update_pass clock_now) in Hpass as (Hids & _ & Hnone & _).
    split; [by rewrite Hids|]. intros k Hk. rewrite Hids. apply Hbelow.
    destruct (manager.timers m !! k) eqn:Hlook; [by eexists|].
    rewrite (Hnone k Hlook) in Hk. by destruct Hk.
Qed.

(** *** The identifier that [get_id] picks *)

Lemma get_id_loop_first tm : forall fuel cur id cur',
  id_range cur ->
  manager.get_id_loop fuel cur tm = Some (id, cur') ->
  exists k : nat,
    (1 <= k)%nat /\
    id = (cur + Z.of_nat k - 1) mod id_modulus /\
    forall j : nat, (j < k - 1)%nat ->
      (cur + Z.of_nat j) mod id_modulus = invalid_timer \/
      is_Some (tm !! ((cur + Z.of_nat j) mod id_modulus)).
Proof.
  induction fuel as [|fuel IH]; intros cur id cur' Hcur; simpl; [discriminate|].
  assert (Hstep : (cur = invalid_timer \/ is_Some (tm !! cur)) ->
    manager.get_id_loop fuel ((cur + 1) mod id_modulus) tm = Some (id, cur') ->
    exists k : nat, (1 <= k)%nat /\
      id = (cur + Z.of_nat k - 1) mod id_modulus /\
      forall j : nat, (j < k - 1)%nat ->
        (cur + Z.of_nat j) mod id_modulus = invalid_timer \/
        is_Some (tm !! ((cur + Z.of_nat j) mod id_modulus))).
  { intros Htaken Hrun.
    apply IH in Hrun as (k & Hk & -> & Hbefore); [|apply id_next_range].
    exists (S k). split; [lia|]. split.
    - replace ((cur + 1) mod id_modulus + Z.of_nat k - 1)
        with ((cur + 1) mod id_modulus + (Z.of_nat k - 1)) by lia.
      rewrite Zplus_mod_idemp_l. f_equal; lia.
    - intros [|j] Hj.
      + rewrite Z.add_0_r, Z.mod_small by done. exact Htaken.
      + specialize (Hbefore j ltac:(lia)). rewrite Zplus_mod_idemp_l in Hbefore.
        by replace (cur + Z.of_nat (S j)) with (cur + 1 + Z.of_nat j) by lia. }
  destruct (Z.eqb_spec cur invalid_timer) as [Hinv|Hinv]; [apply Hstep; by left|].
  destruct (tm !! cur) eqn:Hlook; [apply Hstep; right; by eexists|].
  intros [= <- <-]. exists 1%nat. split; [lia|]. split.
  - rewrite Z.mod_small; [lia|]. unfold id_range in Hcur. lia.
  - intros j Hj. lia.
Qed.

(** X10.  [get_id] returns the first value, counting from the counter on
    and round through zero, that is neither the sentinel nor in use: the
    [k - 1] values before it were each one or the other.  With the counter
    on the sentinel and 0 free, that value is 0 and the counter ends on
    1. *)
Theorem get_id_first_free m :
  id_range (manager.ids m) ->
  (forall id m',
     manager.get_id m = Some (id, m') ->
     exists k : nat,
       (1 <= k)%nat /\
       id = (manager.ids m + Z.of_nat k - 1) mod id_modulus /\
       forall j : nat, (j < k - 1)%nat ->
         (manager.ids m + Z.of_nat j) mod id_modulus = invalid_timer \/
         is_Some (manager.timers m !! ((manager.ids m + Z.of_nat j) mod id_modulus))) /\
  (manager.ids m = invalid_timer -> manager.timers m !! 0 = None ->
   manager.get_id m =
     Some (0, manager.Manager 1 (manager.timers m) (manager.remove m))).
Proof.
  intros Hids. split.
  - intros id m'. unfold manager.get_id.
    destruct (manager.get_id_loop _ _ _) as [[id0 cur']|] eqn:Hrun; [|discriminate].
    intros [= <- <-]. by apply get_id_loop_first in Hrun.
  - intros Hinv Hfree. unfold manager.get_id. rewrite Hinv. simpl.
    change ((invalid_timer + 1) mod id_modulus) with 0. by rewrite Hfree.
Qed.

(** *** What a pass erases *)

(** X11.  A pass of [update] that runs to its end, with handlers that may
    call [cancel], leaves the counter alone and [remove] empty, adds no
    timer, and ticks every timer once, the cancelled ones too.  A timer is
    stored afterwards, as its tick left it, exactly when that tick reported
    "not finished", its identifier was not pending removal when the pass
    began, and no handler of the pass cancelled it. *)
Theorem pass_erases_pending_and_finished
    (outbox : env -> list Z * env) fuel m w asked m' w' :
  reentrant.update clock_now outbox fuel m w = Return asked m' w' ->
  manager.ids m' = manager.ids m /\ manager.remove m' = [] /\
  (forall id, is_Some (manager.timers m' !! id) ->
     is_Some (manager.timers m !! id) /\ (id ∉ manager.remove m) /\
     ~ (id ∈ asked /\ id <> invalid_timer)) /\
  (forall id t, manager.timers m !! id = Some t ->
     exists w1 fin t' w2,
       timer.update clock_now fuel t w1 = Return fin t' w2 /\
       manager.timers m' !! id =
         if fin || bool_decide (id ∈ manager.remove m)
                || bool_decide (id ∈ asked /\ id <> invalid_timer)
         then None else Some t').
Proof.
  intros Hpass.
  apply reentrant_update_pass in Hpass as (Hids & Hrm & Hnone & Hsome).
  split_and!; try done.
  intros id Hid. destruct (manager.timers m !! id) as [t|] eqn:Hlook.
  - split; [by eexists|].
    destruct (Hsome id t Hlook) as (w1 & fin & t' & w2 & _ & Hgone).
    split; intros Hpend;
      rewrite (bool_decide_eq_true_2 _ Hpend), ?orb_true_r in Hgone;
      rewrite Hgone in Hid; by destruct Hid.
  - rewrite (Hnone id Hlook) in Hid. by destruct Hid.
Qed.

(** *** A new manager, one registration, one late pass *)

(** X12.  On a new manager [repeat(cb, dur, N)], [N >= 2], returns
    identifier 0.  A single pass made when the clock has reached
    [N * dur] after the registration calls the handler [N] times and
    leaves the manager empty. *)
Theorem fresh_repeat_one_late_pass cb (N : Z) (dur : duration) w w2 :
  never_raises cb -> 2 <= N < int_max -> 0 <= dur ->
  exists m1 w1,
    manager.repeat clock_now (Some cb) dur N manager.ctor w = Return 0 m1 w1 /\
    forall fuel,
      (Z.to_nat N <= fuel)%nat ->
      fst (clock_now (w_env w)) + N * dur
        <= fst (clock_now (snd (clock_now (w_env w2)))) ->
      exists e',
        manager.update clock_now fuel m1 w2 =
          Return tt (manager.Manager 1 ∅ []) (World e' (w_calls w2 + Z.to_nat N)).
Proof.
  intros Hcb HN Hdur. unfold manager.repeat.
  destruct (Z.leb_spec N 0); [lia|]. destruct (Z.eqb_spec N 1); [lia|].
  rewrite int_wrap_id by (unfold int_range, int_min, int_max in *; lia).
  rewrite add_exact; [|split; cbn; [done|intros k [t Hk]; by rewrite lookup_empty in Hk]
                      |by rewrite invalid_timer_value].
  eexists _, _. split; [done|]. cbn -[manager.sweep].
  intros fuel Hfuel Hlate.
  destruct (clock_now (w_env w)) as [now0 e0]. cbn [fst] in *.
  unfold manager.update. cbn -[manager.sweep].
  rewrite insert_empty, map_to_list_singleton. cbn -[manager.sweep].
  destruct (clock_now (w_env w2)) as [nowa ea]. cbn [snd] in Hlate.
  destruct (clock_now ea) as [now1 e1]. cbn [fst] in Hlate.
  unfold timer.update_from. cbn -[manager.sweep].
  destruct (Z.leb_spec (now0 + dur) now1); [|nia].
  destruct (Z.ltb_spec (N + 1) 0); [lia|].
  destruct (Z.eqb_spec (N + 1) 0); [lia|].
  destruct (Z.ltb_spec 1 (N + 1)); [|lia].
  destruct (loop_counted_catch_up cb now1 (Z.to_nat N - 1) fuel
              (timer.Timer (Some cb) (now0 + dur) dur (N + 1))
              (World e1 (w_calls w2))) as [e' He']; cbn; try done; try lia.
  { intros i Hi. nia. }
  rewrite He'. cbn -[manager.sweep]. exists e'.
  replace (w_calls w2 + (Z.to_nat N - 1) + 1)%nat with (w_calls w2 + Z.to_nat N)%nat
    by lia.
  reflexivity.
Qed.

End ManagerMore.

(** * The worker's loop *)

Section LoopFacts.
Context {env : Type}.
Variable clock_now : env -> time * env.
Variable sleep_for : duration -> env -> env.

Lemma update_loop_first fuel stopped delay m w start starts m' w' :
  update_loop clock_now sleep_for fuel stopped delay m w
    = Return (start :: starts) m' w' ->
  start = fst (clock_now (w_env w)).
Proof.
  destruct stopped as [|[] rest]; simpl; try discriminate.
  destruct (clock_now (w_env w)) as [s e1].
  destruct (manager.update _ _ _ _) as [[] m1 w1| |]; try discriminate.
  destruct (clock_now (w_env w1)) as [finish e2].
  destruct (update_loop _ _ _ _ _ _ _); try discriminate.
  by intros [= <- _ _ _].
Qed.

(** X13.  The clock is steady (a reading is never below the one before
    it) and [sleep_for] does not return early.  Then, in a run of
    [update_loop] that ends, two consecutive passes start at least [delay]
    apart: after a pass shorter than [delay] the loop sleeps for what is
    missing, after a longer one it goes on at once.  The loop makes one
    pass for each time it read [stopped] as false. *)
Theorem update_loop_pacing fuel delay :
  (forall e, fst (clock_now e) <= fst (clock_now (snd (clock_now e)))) ->
  (forall d e, 0 < d ->
     fst (clock_now e) + d <= fst (clock_now (sleep_for d (snd (clock_now e))))) ->
  forall stopped m w starts m' w',
    update_loop clock_now sleep_for fuel stopped delay m w = Return starts m' w' ->
    (forall (i : nat) a b,
       starts !! i = Some a -> starts !! S i = Some b -> a + delay <= b) /\
    exists rest, stopped = replicate (length starts) false ++ true :: rest.
Proof.
  intros Hsteady Hsleep.
  induction stopped as [|flag stopped IH]; intros m w starts m' w'; simpl; [discriminate|].
  destruct flag.
  { intros [= <- <- <-]. split; [intros i a b Hi; by destruct i|]. by exists stopped. }
  destruct (clock_now (w_env w)) as [start e1] eqn:Hc0.
  destruct (manager.update _ _ _ _) as [[] m1 w1| |]; try discriminate.
  destruct (clock_now (w_env w1)) as [finish e2] eqn:Hc1.
  destruct (update_loop _ _ _ _ _ _ _) as [starts1 m2 w2| |] eqn:Hrest; try discriminate.
  intros [= <- <- <-].
  pose proof (IH _ _ _ _ _ Hrest) as [Hgaps [rest ->]]. split.
  2:{ exists rest. done. }
  intros [|i] a b; cbn; [|apply Hgaps].
  intros [= <-] Hb. destruct starts1 as [|s1 starts1]; [done|]. injection Hb as ->.
  apply update_loop_first in Hrest. cbn in Hrest. subst b.
  destruct (Z.ltb_spec 0 (delay - (finish - start))) as [Hshort|Hlong].
  - specialize (Hsleep (delay - (finish - start)) (w_env w1) Hshort).
    rewrite Hc1 in Hsleep. cbn in Hsleep. lia.
  - specialize (Hsteady (w_env w1)). rewrite Hc1 in Hsteady. cbn in Hsteady. lia.
Qed.

End LoopFacts.

(** * The further properties at concrete timers and managers *)

(** An interval of 10 due at 10, ticked at 35. *)
Lemma tick_accounting_witness :
  exists k : nat,
    3%nat = (0 + k)%nat /\
    40 = 10 + Z.of_nat k * 10 /\
    Some cb_ok = Some cb_ok /\
    10 = 10 /\
    0 = (if 1 <? 0 then 0 - Z.of_nat k else 0) /\
    (1 < 0 -> 1 <= 0) /\
    (0 < 0 -> (k <= 1)%nat).
Proof.
  apply (tick_accounting clk 4 (timer.Timer (Some cb_ok) 10 10 0) (World 35 0)
           false (timer.Timer (Some cb_ok) 40 10 0) (World 35 3)).
  - unfold int_max. cbn. lia.
  - reflexivity.
Defined.

(** The same interval with a callback that takes one unit of time. *)
Lemma tick_applies_handler_witness :
  38 = Nat.iter (3 - 0) (fun e => e + 1) 35.
Proof.
  apply (tick_applies_handler clk 4 (timer.Timer (Some cb_slow) 10 10 0) (World 35 0)
           false (timer.Timer (Some cb_slow) 40 10 0) (World 38 3) cb_slow
           (fun e => e + 1)).
  - reflexivity.
  - intros e. reflexivity.
  - unfold int_max. cbn. lia.
  - reflexivity.
Defined.


(** An interval of 10 due at 10, read at 15 and then at 35. *)
Lemma skipped_tick_changes_nothing_witness :
  timer.update_from (S (3 + 3)) 35 (timer.Timer (Some cb_ok) 10 10 0) (World 0 0) =
    Return false (timer.Timer (Some cb_ok) 40 10 0) (World 0 3).
Proof.
  apply (skipped_tick_changes_nothing 3 3 15 35 (timer.Timer (Some cb_ok) 10 10 0)
           (World 0 0) (timer.Timer (Some cb_ok) 20 10 0) (World 0 1)).
  - unfold int_max. cbn. lia.
  - lia.
  - reflexivity.
  - reflexivity.
Defined.

(** A due interval, cancelled before the pass: it fires ten times and is
    then erased. *)
Lemma cancel_only_erases_witness :
  manager.update clk 11
    (manager.cancel 0 (manager.Manager 1 {[0 := timer.Timer (Some cb_ok) 10 10 0]} []))
    (World 100 0) =
  Return tt
    (manager.Manager 1 (delete 0 {[0 := timer.Timer (Some cb_ok) 110 10 0]}) [])
    (World 100 10).
Proof.
  refine (cancel_only_erases clk 11 0
            (manager.Manager 1 {[0 := timer.Timer (Some cb_ok) 10 10 0]} [])
            (World 100 0)
            (manager.Manager 1 {[0 := timer.Timer (Some cb_ok) 110 10 0]} [])
            (World 100 10) _ _).
  - vm_compute. discriminate.
  - vm_compute. reflexivity.
Defined.

(** A pass over one due timer whose handler raises, with 5 pending. *)
Lemma failed_pass_keeps_everything_witness :
  exists fins, [5] = [5] ++ fins.
Proof.
  apply (failed_pass_keeps_everything clk 1
           (manager.Manager 1 {[0 := timer.Timer (Some cb_bad) 10 10 (-1)]} [5])
           (World 100 0)
           (manager.Manager 1 {[0 := timer.Timer (Some cb_bad) 10 10 (-1)]} [5])
           (World 100 1)).
  vm_compute. reflexivity.
Defined.

(** A timeout registered with an empty callback on a new manager. *)
Lemma empty_callback_erased_unfired_witness :
  manager.timers (@manager.Manager Z 1 ∅ []) !! 0 = None.
Proof.
  assert (Hreg : manager.timeout clk None 10 manager.ctor (World 0 0) =
                 Return 0 (manager.Manager 1 {[0 := timer.Timer None 10 10 (-1)]} [])
                        (World 0 0)) by (vm_compute; reflexivity).
  destruct (empty_callback_erased_unfired clk 10 0 _ _ _ _ _ (or_introl Hreg))
    as [_ Hgone].
  apply (Hgone 0%nat (World 5 0) (manager.Manager 1 ∅ []) (World 5 0)).
  vm_compute. reflexivity.
Defined.

(** A pass at 5 over a timeout due at 10, on a clock that reads the
    environment. *)
Lemma idle_pass_changes_nothing_witness :
  manager.update clk 0
    (manager.Manager 1 {[0 := timer.Timer (Some cb_ok) 10 10 (-1)]} []) (World 5 0) =
  Return tt (manager.Manager 1 {[0 := timer.Timer (Some cb_ok) 10 10 (-1)]} [])
         (World 5 0).
Proof.
  refine (idle_pass_changes_nothing clk 0
            (manager.Manager 1 {[0 := timer.Timer (Some cb_ok) 10 10 (-1)]} [])
            (World 5 0) _ _); [|reflexivity].
  intros id t Hlook. cbn in Hlook.
  apply lookup_singleton_Some in Hlook as [_ <-]. split; [by eexists|].
  intros n Hn. change (n < 2)%nat in Hn.
  destruct n as [|[|n]]; [cbn; lia|cbn; lia|lia].
Defined.

(** The first registration on a new manager. *)
Lemma ids_count_up_witness :
  manager.timeout clk (Some cb_ok) 10 manager.ctor (World 0 0) =
    Return 0 (manager.Manager (0 + 1)
                (<[0 := timer.Timer (Some cb_ok) (0 + 10) 10 (-1)]> ∅) [])
           (World 0 0).
Proof.
  assert (Hkb : keys_below (@manager.ctor Z)).
  { split; cbn; [lia|]. intros k [t Hk]. rewrite lookup_empty in Hk. discriminate. }
  destruct (ids_count_up clk manager.ctor Hkb) as [Hreg _].
  apply (Hreg ltac:(vm_compute; reflexivity) (Some cb_ok) 10 0 (World 0 0)).
  unfold time_range. cbn. lia.
Defined.

(** The counter on the sentinel. *)
Lemma get_id_first_free_witness :
  manager.get_id (@manager.Manager Z invalid_timer ∅ []) =
    Some (0, manager.Manager 1 ∅ []).
Proof.
  apply (get_id_first_free (@manager.Manager Z invalid_timer ∅ [])).
  - unfold id_range, id_modulus. vm_compute. split; [discriminate|reflexivity].
  - reflexivity.
  - reflexivity.
Defined.

(** A pass at 15 over an interval that is not due and one that is, whose
    handler cancels the first: the first is erased, the second stays. *)
Lemma pass_erases_pending_and_finished_witness :
  reentrant.update clk outbox_z 3
    (manager.Manager 2 {[0 := timer.Timer (Some cb_ok) 100 10 0;
                         1 := timer.Timer (Some cb_cancel_0) 10 10 0]} [7])
    (World 15 0) =
    Return [0] (manager.Manager 2 {[1 := timer.Timer (Some cb_cancel_0) 20 10 0]} [])
           (World 0 1) /\
  manager.ids (manager.Manager 2 {[1 := timer.Timer (Some cb_cancel_0) 20 10 0]} [])
    = 2 /\
  manager.remove (manager.Manager 2 {[1 := timer.Timer (Some cb_cancel_0) 20 10 0]} [])
    = [].
Proof.
  assert (Hrun : reentrant.update clk outbox_z 3
            (manager.Manager 2 {[0 := timer.Timer (Some cb_ok) 100 10 0;
                                 1 := timer.Timer (Some cb_cancel_0) 10 10 0]} [7])
            (World 15 0) =
            Return [0]
              (manager.Manager 2 {[1 := timer.Timer (Some cb_cancel_0) 20 10 0]} [])
              (World 0 1)) by (vm_compute; reflexivity).
  split; [exact Hrun|].
  destruct (pass_erases_pending_and_finished clk outbox_z _ _ _ _ _ _ Hrun)
    as (Hids & Hrm & _).
  split; [exact Hids|exact Hrm].
Defined.

(** The README's repeat: five times every 3, one pass at 16. *)
Lemma fresh_repeat_one_late_pass_witness :
  exists m1 w1,
    manager.repeat clk (Some cb_ok) 3 5 manager.ctor (World 0 0) = Return 0 m1 w1 /\
    exists e',
      manager.update clk 5 m1 (World 16 0) =
        Return tt (manager.Manager 1 ∅ []) (World e' (0 + 5)).
Proof.
  destruct (fresh_repeat_one_late_pass clk cb_ok 5 3 (World 0 0) (World 16 0))
    as (m1 & w1 & Hreg & Hpass).
  - exact cb_ok_returns.
  - unfold int_max. lia.
  - lia.
  - exists m1, w1. split; [exact Hreg|].
    apply (Hpass 5%nat); [cbn; lia|cbn; lia].
Defined.

(** Two rounds of the loop over an empty manager with a delay of 10. *)
Lemma update_loop_pacing_witness :
  0 + 10 <= 10 /\
  exists rest, [false; false; true] = replicate 2 false ++ true :: rest.
Proof.
  assert (Hsteady : forall e : Z, fst (clk e) <= fst (clk (snd (clk e))))
    by (intros e; cbn; lia).
  assert (Hsleep : forall (d : Z) (e : Z), 0 < d ->
            fst (clk e) + d <= fst (clk (sleep_z d (snd (clk e)))))
    by (intros d e Hd; unfold sleep_z; cbn; lia).
  destruct (update_loop_pacing clk sleep_z 1 10 Hsteady Hsleep
              [false; false; true] manager.ctor (World 0 0)
              [0; 10] manager.ctor (World 20 0)) as [Hgap Hrounds];
    [vm_compute; reflexivity|].
  split; [|exact Hrounds].
  apply (Hgap 0%nat 0 10); reflexivity.
Defined.
